(** * RBB-Website: the pagination control and the footer links

    A shallow embedding of
    - [src/components/Pagination/Pagination.jsx]: the page-window
      computation [pages], the query-string helper
      [getUpdatedSearchParams], the link builder [getPageLink] and the
      render function [Pagination];
    - [src/components/footer/FooterLinks.js]: the render callback of
      [FooterLinks].

    Page numbers are JavaScript numbers that hold integers; they are
    modelled as [Z] (the arithmetic of the component is exact on integers
    below 2^53).  The strings of the pagination links are sequences of
    bytes ([list ascii]): the text of a URL is ASCII, other text is taken
    in its UTF-8 encoding.  The theme, the styling props and the focus and
    hover state of the buttons take no part in what is computed here and
    are left out of the rendered values. *)

From Stdlib Require Import String Ascii ZArith NArith List Lia Bool Sorted.
From Stdlib Require Import DecimalString DecimalPos DecimalZ.
Import ListNotations.
Local Open Scope Z_scope.

(** ** utils/common: [range] *)

Module Common.

(** The loop [while (i <= to) { out.push(i); i += 1 }] run for [n] turns. *)
Fixpoint range_loop (n : nat) (i : Z) : list Z :=
  match n with
  | O => []
  | S k => i :: range_loop k (i + 1)
  end.

(** Modelled from the spec: [range] is imported from [utils/common], which
    is not among the sources.  The spec calls it a standard numeric range
    operation, and the comments of [Pagination.jsx] use it with both ends
    included ([range(1, totalPages)] is every page; ten pages around page 6
    give [{4 5} [6] {7 8}]).  So [range from to] lists [from], [from + 1],
    ..., [to], and is empty when [to < from]. *)
Definition range (from to : Z) : list Z :=
  range_loop (Z.to_nat (to - from + 1)) from.

End Common.

(** ** Pagination.jsx: the page window *)

Module Pagination.
Import Common.

(** An element of the [pages] array: a page number or the string
    [PLACEHOLDER = '...']. *)
Inductive page_entry : Type :=
| PLACEHOLDER
| PageNum (n : Z).

(** [const pageNeighbors = isWide ? 2 : 1]. *)
Definition pageNeighbors (isWide : bool) : Z := if isWide then 2 else 1.

(** The callback given to [useMemo] (lines 46-86); it reads
    [pageNeighbors], [currentPage] and [totalPages] and nothing else. *)
Definition pages (pageNeighbors currentPage totalPages : Z) : list page_entry :=
  let totalNumbers := pageNeighbors * 2 + 3 in
  let totalBlocks := totalNumbers + 2 in
  if totalPages >? totalBlocks then
    let startPage := Z.max 2 (currentPage - pageNeighbors) in
    let endPage := Z.min (totalPages - 1) (currentPage + pageNeighbors) in
    let pages0 := map PageNum (range startPage endPage) in
    let hasLeftSpill := startPage >? 2 in
    let hasRightSpill := totalPages - endPage >? 1 in
    let spillOffset := totalNumbers - (Z.of_nat (length pages0) + 1) in
    let pages1 :=
      if hasLeftSpill && negb hasRightSpill then
        let extraPages := range (startPage - spillOffset) (startPage - 1) in
        PLACEHOLDER :: map PageNum extraPages ++ pages0
      else if negb hasLeftSpill && hasRightSpill then
        let extraPages := range (endPage + 1) (endPage + spillOffset) in
        pages0 ++ map PageNum extraPages ++ [PLACEHOLDER]
      else if hasLeftSpill && hasRightSpill then
        PLACEHOLDER :: pages0 ++ [PLACEHOLDER]
      else pages0 in
    PageNum 1 :: pages1 ++ [PageNum totalPages]
  else
    map PageNum (range 1 totalPages).

(** The numeric entries of a [pages] array, in order. *)
Fixpoint numbers (l : list page_entry) : list Z :=
  match l with
  | [] => []
  | PLACEHOLDER :: r => numbers r
  | PageNum n :: r => n :: numbers r
  end.

End Pagination.

(** ** The platform's [URLSearchParams]

    [Pagination.jsx] builds its links with the browser's
    [URLSearchParams].  The class is modelled after the algorithms of the
    URL standard (application/x-www-form-urlencoded parsing and
    serializing, percent-decoding, UTF-8 decoding with replacement).  A
    decoded name or value is kept as the UTF-8 bytes of its text. *)

Module URLSearchParams.

Definition str : Type := list ascii.

Fixpoint str_eqb (a b : str) : bool :=
  match a, b with
  | [], [] => true
  | x :: a', y :: b' => Ascii.eqb x y && str_eqb a' b'
  | _, _ => false
  end.

Definition code (c : ascii) : N := N_of_ascii c.

Definition between (lo hi : N) (c : ascii) : bool :=
  ((lo <=? code c) && (code c <=? hi))%N.

(** *** UTF-8 decode without BOM

    The decoder of the Encoding standard, one byte at a time.  [pending]
    holds the bytes of the sequence under way, [needed] the number of
    continuation bytes still expected, [lower] and [upper] the bounds of
    the next one.  A finished sequence is output as it is; each error
    outputs U+FFFD (bytes EF BF BD), and the byte that broke a sequence is
    read again as a first byte. *)
Record utf8_state : Type := mk_utf8_state {
  pending : str;
  needed : nat;
  lower : N;
  upper : N
}.

Definition utf8_init : utf8_state :=
  {| pending := []; needed := 0; lower := 128; upper := 191 |}.

Definition REPLACEMENT : str :=
  [ascii_of_N 239; ascii_of_N 191; ascii_of_N 189].

Definition utf8_lead (b : ascii) : str * utf8_state :=
  if between 0 127 b then ([b], utf8_init)
  else if between 194 223 b then
    ([], {| pending := [b]; needed := 1; lower := 128; upper := 191 |})
  else if between 224 239 b then
    ([], {| pending := [b]; needed := 2;
            lower := if (code b =? 224)%N then 160%N else 128%N;
            upper := if (code b =? 237)%N then 159%N else 191%N |})
  else if between 240 244 b then
    ([], {| pending := [b]; needed := 3;
            lower := if (code b =? 240)%N then 144%N else 128%N;
            upper := if (code b =? 244)%N then 143%N else 191%N |})
  else (REPLACEMENT, utf8_init).

Definition utf8_step (st : utf8_state) (b : ascii) : str * utf8_state :=
  match needed st with
  | O => utf8_lead b
  | S k =>
      if between (lower st) (upper st) b then
        match k with
        | O => (pending st ++ [b], utf8_init)
        | S _ => ([], {| pending := pending st ++ [b]; needed := k;
                         lower := 128; upper := 191 |})
        end
      else let (out, st') := utf8_lead b in (REPLACEMENT ++ out, st')
  end.

Fixpoint utf8_run (st : utf8_state) (l : str) : str :=
  match l with
  | [] => match needed st with O => [] | S _ => REPLACEMENT end
  | b :: r => let (out, st') := utf8_step st b in out ++ utf8_run st' r
  end.

Definition utf8_decode (l : str) : str := utf8_run utf8_init l.

(** *** Well-formed UTF-8

    One character: the byte sequences the decoder accepts. *)
Inductive utf8_char : str -> Prop :=
| utf8_char_1 (b : ascii) :
    between 0 127 b = true -> utf8_char [b]
| utf8_char_2 (b1 b2 : ascii) :
    between 194 223 b1 = true -> between 128 191 b2 = true ->
    utf8_char [b1; b2]
| utf8_char_3 (b1 b2 b3 : ascii) :
    between 224 239 b1 = true ->
    between (if (code b1 =? 224)%N then 160%N else 128%N)
            (if (code b1 =? 237)%N then 159%N else 191%N) b2 = true ->
    between 128 191 b3 = true ->
    utf8_char [b1; b2; b3]
| utf8_char_4 (b1 b2 b3 b4 : ascii) :
    between 240 244 b1 = true ->
    between (if (code b1 =? 240)%N then 144%N else 128%N)
            (if (code b1 =? 244)%N then 143%N else 191%N) b2 = true ->
    between 128 191 b3 = true -> between 128 191 b4 = true ->
    utf8_char [b1; b2; b3; b4].

Inductive utf8_valid : str -> Prop :=
| utf8_valid_nil : utf8_valid []
| utf8_valid_char (c r : str) :
    utf8_char c -> utf8_valid r -> utf8_valid (c ++ r).

(** [bs] can finish a sequence that expects [k] more bytes, the first of
    them within [lo .. hi]. *)
Definition completes (lo hi : N) (k : nat) (bs : str) : Prop :=
  match bs with
  | [] => False
  | b :: r => between lo hi b = true /\ length bs = k /\
              Forall (fun c => between 128 191 c = true) r
  end.

(** The bytes under way begin a character. *)
Definition state_ok (st : utf8_state) : Prop :=
  forall bs, completes (lower st) (upper st) (needed st) bs ->
             utf8_char (pending st ++ bs).

(** *** Percent-decoding and percent-encoding *)

Definition hex_value (c : ascii) : option N :=
  if between 48 57 c then Some (code c - 48)%N
  else if between 65 70 c then Some (code c - 55)%N
  else if between 97 102 c then Some (code c - 87)%N
  else None.

Definition hex_digit (n : N) : ascii :=
  if (n <? 10)%N then ascii_of_N (48 + n) else ascii_of_N (55 + n).

Fixpoint percent_decode (l : str) : str :=
  match l with
  | [] => []
  | c :: r =>
      if Ascii.eqb c "%" then
        match r with
        | h :: r1 =>
            match r1 with
            | d :: r2 =>
                match hex_value h, hex_value d with
                | Some x, Some y => ascii_of_N (16 * x + y) :: percent_decode r2
                | _, _ => c :: percent_decode r
                end
            | [] => c :: percent_decode r
            end
        | [] => c :: percent_decode r
        end
      else c :: percent_decode r
  end.

(** The application/x-www-form-urlencoded percent-encode set: every code
    point except the ASCII alphanumerics and [*], [-], [.], [_]. *)
Definition urlencoded_keep (c : ascii) : bool :=
  between 48 57 c || between 65 90 c || between 97 122 c ||
  Ascii.eqb c "*" || Ascii.eqb c "-" || Ascii.eqb c "." || Ascii.eqb c "_".

Definition percent_encode_byte (c : ascii) : str :=
  ["%"%char; hex_digit (code c / 16); hex_digit (code c mod 16)].

(** Percent-encode after encoding, with space as plus. *)
Definition urlencoded_byte (c : ascii) : str :=
  if Ascii.eqb c " " then ["+"%char]
  else if urlencoded_keep c then [c]
  else percent_encode_byte c.

Definition urlencoded_encode (x : str) : str := flat_map urlencoded_byte x.

(** *** The urlencoded parser and serializer *)

Fixpoint split_on (sep : ascii) (l : str) : list str :=
  match l with
  | [] => [[]]
  | c :: r =>
      if Ascii.eqb c sep then [] :: split_on sep r
      else match split_on sep r with
           | seg :: segs => (c :: seg) :: segs
           | [] => [[c]]
           end
  end.

(** The bytes before the first [sep] and the bytes after it; everything
    and nothing when there is no [sep]. *)
Fixpoint break_at (sep : ascii) (l : str) : str * str :=
  match l with
  | [] => ([], [])
  | c :: r =>
      if Ascii.eqb c sep then ([], r)
      else let (a, b) := break_at sep r in (c :: a, b)
  end.

Definition plus_to_space (c : ascii) : ascii :=
  if Ascii.eqb c "+" then " "%char else c.

Definition decode_component (x : str) : str :=
  utf8_decode (percent_decode (map plus_to_space x)).

Definition params : Type := list (str * str).

Definition parse_tuple (bytes : str) : str * str :=
  let (name, value) := break_at "=" bytes in
  (decode_component name, decode_component value).

Definition is_empty (x : str) : bool :=
  match x with [] => true | _ :: _ => false end.

Definition urlencoded_parse (input : str) : params :=
  map parse_tuple (filter (fun b => negb (is_empty b)) (split_on "&" input)).

(** What the serializer writes for one tuple. *)
Definition serialize_tuple (t : str * str) : str :=
  urlencoded_encode (fst t) ++ ["="%char] ++ urlencoded_encode (snd t).

Definition urlencoded_serialize (tuples : params) : str :=
  fold_left
    (fun output t =>
       (if is_empty output then output else output ++ ["&"%char])
       ++ urlencoded_encode (fst t) ++ ["="%char] ++ urlencoded_encode (snd t))
    tuples [].

Definition params_valid (l : params) : Prop :=
  Forall (fun t => utf8_valid (fst t) /\ utf8_valid (snd t)) l.

(** *** The class *)

(** [new URLSearchParams(init)]: one leading [?] is dropped. *)
Definition new (init : str) : params :=
  match init with
  | c :: r => if Ascii.eqb c "?" then urlencoded_parse r else urlencoded_parse init
  | [] => urlencoded_parse init
  end.

(** [delete(name)]: every tuple called [name] goes. *)
Definition delete (name : str) (l : params) : params :=
  filter (fun t => negb (str_eqb (fst t) name)) l.

Definition has (name : str) (l : params) : bool :=
  existsb (fun t => str_eqb (fst t) name) l.

(** [set(name, value)]: the first tuple called [name] gets [value] and the
    other ones go; without such a tuple, [(name, value)] is appended. *)
Fixpoint set_first (name value : str) (l : params) : params :=
  match l with
  | [] => []
  | t :: r =>
      if str_eqb (fst t) name then (fst t, value) :: delete name r
      else t :: set_first name value r
  end.

Definition set (name value : str) (l : params) : params :=
  if has name l then set_first name value l else l ++ [(name, value)].

Definition toString (l : params) : str := urlencoded_serialize l.

End URLSearchParams.

(** ** Pagination.jsx: links and rendering *)

Module PaginationLinks.
Import Pagination.
Import URLSearchParams.

(** The string a page number becomes when it is given to
    [searchParams.set] or put in a template: its decimal digits, with a
    sign when negative. *)
Definition Number_toString (n : Z) : str :=
  list_ascii_of_string (DecimalString.NilZero.string_of_int (Z.to_int n)).

Definition PAGE : str := list_ascii_of_string "page".

Definition getUpdatedSearchParams (searchString : str) (page : Z) : str :=
  let searchParams := URLSearchParams.new searchString in
  let searchParams :=
    if page =? 1 then URLSearchParams.delete PAGE searchParams
    else URLSearchParams.set PAGE (Number_toString page) searchParams in
  URLSearchParams.toString searchParams.

Record Location : Type := mkLocation {
  pathname : str;
  search : str
}.

(** [getPageLink] (lines 133-141), with [location] and [pathname] of the
    enclosing render as arguments.  An empty string is falsy. *)
Definition getPageLink (location : Location) (page : Z) : str :=
  let params := getUpdatedSearchParams (search location) page in
  if negb (is_empty params) then
    pathname location ++ ["?"%char] ++ params ++ list_ascii_of_string "#results"
  else pathname location.

(** The [location] prop as the component receives it. *)
Inductive location_prop : Type :=
| Undefined
| Null
| LocationObject (l : Location).

(** *** [useMemo]

    The memo cell of the hook: the dependencies of the last computation
    and its value.  A render whose dependencies are the stored ones gets
    the stored value, any other render computes and stores. *)
Definition deps : Type := (Z * Z * Z)%type.

Definition deps_eqb (a b : deps) : bool :=
  let '(a1, a2, a3) := a in
  let '(b1, b2, b3) := b in
  (a1 =? b1) && (a2 =? b2) && (a3 =? b3).

Definition memo (A : Type) : Type := option (deps * A).

Definition useMemo {A : Type} (compute : unit -> A) (d : deps) (cell : memo A)
  : A * memo A :=
  match cell with
  | Some (d0, v) =>
      if deps_eqb d0 d then (v, cell)
      else let v' := compute tt in (v', Some (d, v'))
  | None => let v' := compute tt in (v', Some (d, v'))
  end.

(** *** The rendered control *)

Inductive direction : Type := PREVIOUS | NEXT.

Record PaginationArrow : Type := mkArrow {
  arrow_hidden : bool;
  arrow_direction : direction;
  linkTo : str
}.

(** A child made by [pages.map]: the placeholder box or a page button. *)
Inductive page_item : Type :=
| PlaceholderBox (key : nat)
| PageButton (key : nat) (to : str) (page : Z) (isActivePage : bool).

Record Flex : Type := mkFlex {
  prevArrow : PaginationArrow;
  items : list page_item;
  nextArrow : PaginationArrow
}.

Record props : Type := mkProps {
  location : location_prop;
  currentPage : Z;
  totalPages : Z
}.

Fixpoint map_index {A B : Type} (f : A -> nat -> B) (i : nat) (l : list A) : list B :=
  match l with
  | [] => []
  | a :: r => f a i :: map_index f (S i) r
  end.

Definition render_item (loc : Location) (currentPage : Z)
  (page : page_entry) (index : nat) : page_item :=
  match page with
  | PLACEHOLDER => PlaceholderBox index
  | PageNum n => PageButton index (getPageLink loc n) n (currentPage =? n)
  end.

(** The hook call of lines 46-86: the [pages] of this render and the memo
    cell after it. *)
Definition usePages (isWide : bool) (p : props) (cell : memo (list page_entry))
  : list page_entry * memo (list page_entry) :=
  let pageNeighbors := pageNeighbors isWide in
  useMemo (fun _ => pages pageNeighbors (currentPage p) (totalPages p))
          (currentPage p, totalPages p, pageNeighbors) cell.

(** One render of the component: [isWide] is what [useMedia] answers,
    [cell] the memo cell of the instance.  [None] is the [null] of the
    guard of line 124. *)
Definition Pagination (isWide : bool) (p : props) (cell : memo (list page_entry))
  : option Flex * memo (list page_entry) :=
  let (pages, cell') := usePages isWide p cell in
  match location p with
  | Undefined | Null => (None, cell')
  | LocationObject loc =>
      let prevPageLink := getPageLink loc (currentPage p - 1) in
      let nextPageLink := getPageLink loc (currentPage p + 1) in
      (Some {| prevArrow := {| arrow_hidden := currentPage p =? 1;
                               arrow_direction := PREVIOUS;
                               linkTo := prevPageLink |};
               items := map_index (render_item loc (currentPage p)) 0 pages;
               nextArrow := {| arrow_hidden := currentPage p =? totalPages p;
                               arrow_direction := NEXT;
                               linkTo := nextPageLink |} |},
       cell')
  end.

(** The memo cell after a series of renders of one instance, mounted with
    an empty cell. *)
Definition renders (history : list (bool * props)) : memo (list page_entry) :=
  fold_left (fun cell r => snd (Pagination (fst r) (snd r) cell)) history None.

(** What an item shows: the placeholder or its page number. *)
Definition item_entry (it : page_item) : page_entry :=
  match it with
  | PlaceholderBox _ => PLACEHOLDER
  | PageButton _ _ n _ => PageNum n
  end.

(** The parameters that are not called [page], in their order. *)
Definition other_params (l : params) : params :=
  filter (fun t => negb (str_eqb (fst t) PAGE)) l.

(** A memo cell is sound when its value is the window of its
    dependencies. *)
Definition memo_sound (cell : memo (list page_entry)) : Prop :=
  match cell with
  | None => True
  | Some ((cur, total, pn), v) => v = pages pn cur total
  end.

End PaginationLinks.

(** ** footer/FooterLinks.js *)

Module FooterLinks.
Local Open Scope string_scope.

Record menuLink : Type := mkLink {
  name : string;
  slug : string
}.

(** A rendered [NavItem] with its [Link]. *)
Record NavItem : Type := mkNavItem {
  key : string;
  to : string;
  isExternal : bool;
  children : string
}.

Definition render_link (link : menuLink) : NavItem :=
  {| key := name link;
     to := if negb (String.eqb (slug link) "/watch") then slug link
           else "http://bit.ly/3csKkSE";
     isExternal := String.eqb (slug link) "/watch";
     children := name link |}.

(** The render callback of the [StaticQuery]: the children of [NavMenu]
    for the queried [data.site.siteMetadata.menuLinks]. *)
Definition FooterLinks (menuLinks : list menuLink) : list NavItem :=
  map render_link (menuLinks ++ [ {| name := "Legal"; slug := "/legal" |} ]).

End FooterLinks.

(** ** The page window in closed form *)

Module PageWindow.
Import Common Pagination.

(** What the window looks like, case by case: every page when the pages
    fit in the blocks; else the first [2 * pageNeighbors + 3] pages near
    the start, the last [2 * pageNeighbors + 3] pages near the end, and
    the current page with its neighbours between two placeholders in the
    middle. *)
Definition pages_closed_form (pageNeighbors currentPage totalPages : Z)
  : list page_entry :=
  if totalPages <=? 2 * pageNeighbors + 5 then
    map PageNum (range 1 totalPages)
  else if currentPage <=? pageNeighbors + 2 then
    PageNum 1 :: map PageNum (range 2 (2 * pageNeighbors + 3))
      ++ [PLACEHOLDER; PageNum totalPages]
  else if totalPages - pageNeighbors - 1 <=? currentPage then
    PageNum 1 :: PLACEHOLDER
      :: map PageNum (range (totalPages - 2 * pageNeighbors - 2) (totalPages - 1))
      ++ [PageNum totalPages]
  else
    PageNum 1 :: PLACEHOLDER
      :: map PageNum (range (currentPage - pageNeighbors) (currentPage + pageNeighbors))
      ++ [PLACEHOLDER; PageNum totalPages].

End PageWindow.

(** ** Pagination.jsx: focus and hover of the page buttons *)

Module FocusHover.

(** A value of [refWithFocus] or [refWithHover]: [undefined] (the initial
    state of [useState()]), [null], or the element of a page button, named
    by its index. *)
Inductive ref_value : Type :=
| RefUndefined
| RefNull
| RefElem (index : nat).

Definition truthy (v : ref_value) : bool :=
  match v with
  | RefElem _ => true
  | RefUndefined | RefNull => false
  end.

Record state : Type := mkState {
  refWithFocus : ref_value;
  refWithHover : ref_value
}.

Definition mounted : state :=
  {| refWithFocus := RefUndefined; refWithHover := RefUndefined |}.

(** [addHoverRemoveFocus] (lines 102-108): the next state and the elements
    on which [blur()] was called. *)
Definition addHoverRemoveFocus (st : state) (elem : ref_value) : state * list nat :=
  match refWithFocus st with
  | RefElem focused =>
      ({| refWithFocus := RefNull; refWithHover := elem |}, [focused])
  | RefUndefined | RefNull => (st, [])
  end.

(** [addFocusRemoveHover] (lines 115-121). *)
Definition addFocusRemoveHover (st : state) (elem : ref_value) : state :=
  {| refWithFocus := elem;
     refWithHover := if truthy (refWithHover st) then RefNull
                     else refWithHover st |}.

(** The two handlers of a button, with [refs.current[index]] as [elem]. *)
Inductive event : Type :=
| onFocus (elem : ref_value)
| onMouseEnter (elem : ref_value).

Definition handle (acc : state * list nat) (e : event) : state * list nat :=
  match e with
  | onFocus elem => (addFocusRemoveHover (fst acc) elem, snd acc)
  | onMouseEnter elem =>
      let (st, blurred) := addHoverRemoveFocus (fst acc) elem in
      (st, snd acc ++ blurred)
  end.

(** The state after a series of events on a mounted control, and the
    elements blurred on the way, in order.  The control renders again
    after each event, so a handler reads the state the handler before it
    has set. *)
Definition after (events : list event) : state * list nat :=
  fold_left handle events (mounted, []).

(** The [_hover] background of a button: [!isActivePage && refWithHover &&
    theme.colors['rbb-lightgray']] is a colour or a falsy value. *)
Definition hover_background (isActivePage : bool) (st : state) : bool :=
  negb isActivePage && truthy (refWithHover st).

End FocusHover.

Module PaginationItems.
Import PaginationLinks.

(** [isActivePage] of a rendered child; the placeholder box has none. *)
Definition isActive (it : page_item) : bool :=
  match it with
  | PlaceholderBox _ => false
  | PageButton _ _ _ active => active
  end.

(** The parameters called [page]. *)
Definition page_params (l : URLSearchParams.params) : URLSearchParams.params :=
  filter (fun t => URLSearchParams.str_eqb (fst t) PAGE) l.

End PaginationItems.

(** * Properties *)

Section RangeFacts.
Import Common.

Lemma range_loop_length (n : nat) (i : Z) : length (range_loop n i) = n.
Proof. revert i; induction n as [|n IH]; intros i; simpl; [|rewrite IH]; reflexivity. Qed.

Lemma range_length (a b : Z) : length (range a b) = Z.to_nat (b - a + 1).
Proof. apply range_loop_length. Qed.

Lemma range_loop_In (n : nat) (i x : Z) :
  In x (range_loop n i) <-> i <= x < i + Z.of_nat n.
Proof.
  revert i; induction n as [|n IH]; intros i; simpl.
  - lia.
  - rewrite IH. lia.
Qed.

Lemma range_In (a b x : Z) : In x (range a b) <-> a <= x <= b.
Proof. unfold range. rewrite range_loop_In. lia. Qed.

Lemma range_loop_sorted (n : nat) (i : Z) : StronglySorted Z.lt (range_loop n i).
Proof.
  revert i; induction n as [|n IH]; intros i; simpl; constructor.
  - apply IH.
  - apply Forall_forall. intros x Hx. apply range_loop_In in Hx. lia.
Qed.

Lemma range_sorted (a b : Z) : StronglySorted Z.lt (range a b).
Proof. apply range_loop_sorted. Qed.

Lemma range_loop_nth_error (n k : nat) (i : Z) :
  (k < n)%nat -> nth_error (range_loop n i) k = Some (i + Z.of_nat k).
Proof.
  revert k i. induction n as [|n IH]; intros k i Hk; [lia|].
  destruct k as [|k]; simpl.
  - f_equal. lia.
  - rewrite IH by lia. f_equal. lia.
Qed.

(** The [k]-th element of a range is [from + k]. *)
Lemma range_nth_error (a b : Z) (k : nat) :
  a + Z.of_nat k <= b -> nth_error (range a b) k = Some (a + Z.of_nat k).
Proof. intros H. apply range_loop_nth_error. lia. Qed.

End RangeFacts.

Section PageWindow.
Import Common Pagination.

Lemma sorted_app (l1 l2 : list Z) :
  StronglySorted Z.lt l1 -> StronglySorted Z.lt l2 ->
  (forall x y, In x l1 -> In y l2 -> x < y) ->
  StronglySorted Z.lt (l1 ++ l2).
Proof.
  induction l1 as [|a l1 IH]; simpl; intros S1 S2 Hlt; [exact S2|].
  inversion S1 as [|? ? S1' Ha]; subst. constructor.
  - apply IH; auto.
  - apply Forall_app; split; [exact Ha|].
    apply Forall_forall; intros y Hy. apply Hlt; auto.
Qed.

Lemma numbers_app (l1 l2 : list page_entry) :
  numbers (l1 ++ l2) = numbers l1 ++ numbers l2.
Proof.
  induction l1 as [|[|n] l1 IH]; simpl; [reflexivity|exact IH|now rewrite IH].
Qed.

Lemma numbers_map_PageNum (l : list Z) : numbers (map PageNum l) = l.
Proof. induction l as [|a l IH]; simpl; [|rewrite IH]; reflexivity. Qed.

Lemma In_numbers (n : Z) (l : list page_entry) :
  In n (numbers l) <-> In (PageNum n) l.
Proof.
  induction l as [|[|m] l IH]; simpl.
  - tauto.
  - rewrite IH. split; [auto|intros [H|H]; [discriminate|exact H]].
  - rewrite IH. split; (intros [H|H]; [left; congruence|right; exact H]).
Qed.

(** The shape of the window when there are more pages than blocks. *)
Lemma pages_long (pn cur total : Z) :
  total > pn * 2 + 3 + 2 ->
  exists mid, pages pn cur total = PageNum 1 :: mid ++ [PageNum total] /\
    incl (map PageNum (range (Z.max 2 (cur - pn)) (Z.min (total - 1) (cur + pn)))) mid.
Proof.
  intros H. unfold pages.
  destruct (Z.gtb_spec total (pn * 2 + 3 + 2)) as [_|Hn]; [|lia].
  cbv zeta. eexists; split; [reflexivity|].
  intros e He.
  destruct (_ && negb _); [|destruct (negb _ && _); [|destruct (_ && _)]].
  - right. apply in_or_app. right. exact He.
  - apply in_or_app. left. exact He.
  - right. apply in_or_app. left. exact He.
  - exact He.
Qed.

(** C1: with more pages than blocks, the window starts with page 1, ends
    with the last page, and contains the current page with its
    neighbours: every page from [max 2 (currentPage - pageNeighbors)] to
    [min (totalPages - 1) (currentPage + pageNeighbors)]. *)
Theorem pages_first_last_neighbours (pn cur total : Z) :
  pn = 1 \/ pn = 2 ->
  1 <= cur <= total ->
  total > 2 * pn + 5 ->
  hd_error (pages pn cur total) = Some (PageNum 1) /\
  last (pages pn cur total) PLACEHOLDER = PageNum total /\
  forall p, Z.max 2 (cur - pn) <= p <= Z.min (total - 1) (cur + pn) ->
            In (PageNum p) (pages pn cur total).
Proof.
  intros Hpn Hcur Htot.
  destruct (pages_long pn cur total) as [mid [E Hin]]; [lia|].
  rewrite E. split; [reflexivity|]. split.
  - change (PageNum 1 :: mid ++ [PageNum total])
      with ((PageNum 1 :: mid) ++ [PageNum total]).
    apply last_last.
  - intros p Hp. right. apply in_or_app. left. apply Hin.
    apply in_map. apply range_In. exact Hp.
Qed.

Lemma pages_first_last_neighbours_witness :
  hd_error (pages 2 6 10) = Some (PageNum 1) /\
  last (pages 2 6 10) PLACEHOLDER = PageNum 10 /\
  forall p, Z.max 2 (6 - 2) <= p <= Z.min (10 - 1) (6 + 2) ->
            In (PageNum p) (pages 2 6 10).
Proof. apply (pages_first_last_neighbours 2 6 10); lia. Defined.

(** C2: the window never has more entries than the block count
    [totalNumbers + 2 = 2 * pageNeighbors + 5], whatever the current
    page. *)
Theorem pages_length_le_totalBlocks (pn cur total : Z) :
  pn = 1 \/ pn = 2 ->
  1 <= total ->
  Z.of_nat (length (pages pn cur total)) <= 2 * pn + 5.
Proof.
  intros Hpn Htot. unfold pages.
  destruct (Z.gtb_spec total (pn * 2 + 3 + 2)) as [Hgt|Hle].
  - cbv zeta.
    destruct (Z.gtb_spec (Z.max 2 (cur - pn)) 2) as [Hl|Hl];
      destruct (Z.gtb_spec (total - Z.min (total - 1) (cur + pn)) 1) as [Hr|Hr];
      simpl andb; cbv iota;
      simpl length;
      repeat (rewrite ?length_app, ?length_map, ?range_length; simpl length);
      lia.
  - rewrite length_map, range_length. lia.
Qed.

Lemma pages_length_le_totalBlocks_witness :
  Z.of_nat (length (pages 2 1000 10)) <= 2 * 2 + 5.
Proof. apply (pages_length_le_totalBlocks 2 1000 10); lia. Defined.

(** C3: when the pages fit in the blocks, the window is every page
    number [1 .. totalPages] in order and holds no placeholder. *)
Theorem pages_short_all_pages (pn cur total : Z) :
  1 <= total <= 2 * pn + 5 ->
  pages pn cur total = map PageNum (range 1 total) /\
  length (pages pn cur total) = Z.to_nat total /\
  (forall i, 0 <= i < total ->
     nth_error (pages pn cur total) (Z.to_nat i) = Some (PageNum (i + 1))) /\
  (forall p, In (PageNum p) (pages pn cur total) <-> 1 <= p <= total) /\
  ~ In PLACEHOLDER (pages pn cur total).
Proof.
  intros H. unfold pages.
  destruct (Z.gtb_spec total (pn * 2 + 3 + 2)) as [Hgt|_]; [lia|].
  split; [reflexivity|]. split; [|split; [|split]].
  - rewrite length_map, range_length. f_equal. lia.
  - intros i Hi. apply map_nth_error.
    replace (i + 1) with (1 + Z.of_nat (Z.to_nat i)) by lia.
    apply range_nth_error. lia.
  - intros p. rewrite <- In_numbers, numbers_map_PageNum. apply range_In.
  - intros Hin. apply in_map_iff in Hin. destruct Hin as [x [Hx _]]. discriminate.
Qed.

Lemma pages_short_all_pages_witness :
  pages 2 3 9 = map PageNum (range 1 9) /\
  length (pages 2 3 9) = Z.to_nat 9 /\
  (forall i, 0 <= i < 9 ->
     nth_error (pages 2 3 9) (Z.to_nat i) = Some (PageNum (i + 1))) /\
  (forall p, In (PageNum p) (pages 2 3 9) <-> 1 <= p <= 9) /\
  ~ In PLACEHOLDER (pages 2 3 9).
Proof. apply (pages_short_all_pages 2 3 9); lia. Defined.

Lemma window_sorted (total : Z) (mid : list Z) :
  1 < total ->
  StronglySorted Z.lt mid ->
  (forall x, In x mid -> 1 < x < total) ->
  (forall n, In n (1 :: mid ++ [total]) -> 1 <= n <= total) /\
  StronglySorted Z.lt (1 :: mid ++ [total]).
Proof.
  intros Ht Hs Hb. split.
  - intros n [<-|Hn]; [lia|].
    apply in_app_or in Hn. destruct Hn as [Hn|[<-|[]]]; [apply Hb in Hn|]; lia.
  - constructor.
    + apply sorted_app; [exact Hs|repeat constructor|].
      intros x y Hx [<-|[]]. apply Hb in Hx. lia.
    + apply Forall_forall. intros x Hx.
      apply in_app_or in Hx. destruct Hx as [Hx|[<-|[]]]; [apply Hb in Hx|]; lia.
Qed.

Lemma range_app_sorted (a b c d : Z) :
  b < c -> StronglySorted Z.lt (range a b ++ range c d).
Proof.
  intros H. apply sorted_app; try apply range_sorted.
  intros x y Hx Hy. apply range_In in Hx, Hy. lia.
Qed.

(** C6: for a current page within [1 .. totalPages], every page number of
    the window lies in [1 .. totalPages] and the page numbers are strictly
    increasing from left to right. *)
Theorem pages_numbers_in_range_increasing (pn cur total : Z) :
  pn = 1 \/ pn = 2 ->
  1 <= total ->
  1 <= cur <= total ->
  (forall n, In (PageNum n) (pages pn cur total) -> 1 <= n <= total) /\
  StronglySorted Z.lt (numbers (pages pn cur total)).
Proof.
  intros Hpn Htot Hcur.
  enough (H : (forall n, In n (numbers (pages pn cur total)) -> 1 <= n <= total) /\
              StronglySorted Z.lt (numbers (pages pn cur total))).
  { destruct H as [H1 H2]. split; [|exact H2].
    intros n Hn. apply H1, In_numbers, Hn. }
  unfold pages.
  destruct (Z.gtb_spec total (pn * 2 + 3 + 2)) as [Hgt|Hle].
  - cbv zeta. rewrite length_map, range_length.
    set (s := Z.max 2 (cur - pn)). set (e := Z.min (total - 1) (cur + pn)).
    destruct (Z.gtb_spec s 2) as [Hl|Hl];
      destruct (Z.gtb_spec (total - e) 1) as [Hr|Hr];
      simpl andb; cbv iota; simpl numbers;
      rewrite ?numbers_app, ?numbers_map_PageNum; simpl numbers;
      rewrite ?app_nil_r, ?app_assoc;
      apply window_sorted; try lia;
      try apply range_app_sorted; try apply range_sorted; try lia;
      intros x Hx; try apply in_app_or in Hx;
      rewrite ?range_In in Hx; lia.
  - rewrite numbers_map_PageNum. split.
    + intros n Hn. apply range_In in Hn. exact Hn.
    + apply range_sorted.
Qed.

Lemma pages_numbers_in_range_increasing_witness :
  (forall n, In (PageNum n) (pages 1 8 8) -> 1 <= n <= 8) /\
  StronglySorted Z.lt (numbers (pages 1 8 8)).
Proof. apply (pages_numbers_in_range_increasing 1 8 8); lia. Defined.

End PageWindow.

Section Rendering.
Import Pagination PaginationLinks.

(** C4: without a location (undefined or null) the component renders
    nothing, whatever the page numbers, the screen width and the memo
    cell: the result is the [null] of the guard and holds no link. *)
Theorem Pagination_without_location_renders_nothing
  (isWide : bool) (cur total : Z) (cell : memo (list page_entry)) :
  fst (Pagination isWide (mkProps Undefined cur total) cell) = None /\
  fst (Pagination isWide (mkProps Null cur total) cell) = None.
Proof.
  unfold Pagination. simpl location.
  split; destruct (usePages isWide (mkProps _ cur total) cell); reflexivity.
Qed.

Lemma deps_eqb_eq (a b : deps) : deps_eqb a b = true -> a = b.
Proof.
  destruct a as [[a1 a2] a3], b as [[b1 b2] b3]. simpl.
  rewrite !andb_true_iff, !Z.eqb_eq. intros [[-> ->] ->]. reflexivity.
Qed.

Lemma usePages_sound (isWide : bool) (p : props) (cell : memo (list page_entry)) :
  memo_sound cell ->
  fst (usePages isWide p cell) = pages (pageNeighbors isWide) (currentPage p) (totalPages p) /\
  memo_sound (snd (usePages isWide p cell)).
Proof.
  intros Hc. unfold usePages, useMemo.
  destruct cell as [[d0 v]|]; [|split; reflexivity].
  destruct (deps_eqb d0 _) eqn:E; [|split; reflexivity].
  apply deps_eqb_eq in E. subst d0. simpl in Hc. simpl. split; [exact Hc|exact Hc].
Qed.

Lemma Pagination_cell (isWide : bool) (p : props) (cell : memo (list page_entry)) :
  snd (Pagination isWide p cell) = snd (usePages isWide p cell).
Proof.
  unfold Pagination. destruct (usePages isWide p cell) as [pgs c].
  destruct (location p); reflexivity.
Qed.

Lemma renders_from_sound (history : list (bool * props)) (cell : memo (list page_entry)) :
  memo_sound cell ->
  memo_sound (fold_left (fun cell r => snd (Pagination (fst r) (snd r) cell)) history cell).
Proof.
  revert cell. induction history as [|[w p] h IH]; intros cell Hc; simpl; [exact Hc|].
  apply IH. rewrite Pagination_cell. apply usePages_sound, Hc.
Qed.

Lemma renders_sound (history : list (bool * props)) : memo_sound (renders history).
Proof. apply renders_from_sound. exact I. Qed.

Lemma item_entry_map_index (loc : Location) (cur : Z) (l : list page_entry) (i : nat) :
  map item_entry (map_index (render_item loc cur) i l) = l.
Proof.
  revert i. induction l as [|[|n] l IH]; intros i; simpl; [|rewrite IH..]; reflexivity.
Qed.

(** C5: the window of a render is a function of [currentPage],
    [totalPages] and [pageNeighbors] alone.  Whatever was rendered before
    on the instance (the memo cell) and whatever the location is, the
    hook yields [pages pageNeighbors currentPage totalPages]; so two
    renders with the same three numbers yield the same window, and with a
    location the items shown are that window. *)
Theorem pages_depend_only_on_page_numbers
  (h1 h2 : list (bool * props)) (isWide : bool) (loc1 loc2 : location_prop)
  (l1 l2 : Location) (cur total : Z) :
  fst (usePages isWide (mkProps loc1 cur total) (renders h1))
    = pages (pageNeighbors isWide) cur total /\
  fst (usePages isWide (mkProps loc1 cur total) (renders h1))
    = fst (usePages isWide (mkProps loc2 cur total) (renders h2)) /\
  option_map (fun f => map item_entry (items f))
    (fst (Pagination isWide (mkProps (LocationObject l1) cur total) (renders h1)))
    = Some (pages (pageNeighbors isWide) cur total) /\
  option_map (fun f => map item_entry (items f))
    (fst (Pagination isWide (mkProps (LocationObject l1) cur total) (renders h1)))
    = option_map (fun f => map item_entry (items f))
    (fst (Pagination isWide (mkProps (LocationObject l2) cur total) (renders h2))).
Proof.
  assert (U : forall h loc,
    fst (usePages isWide (mkProps loc cur total) (renders h))
      = pages (pageNeighbors isWide) cur total).
  { intros h loc. apply (usePages_sound isWide (mkProps loc cur total)), renders_sound. }
  assert (P : forall h l,
    option_map (fun f => map item_entry (items f))
      (fst (Pagination isWide (mkProps (LocationObject l) cur total) (renders h)))
      = Some (pages (pageNeighbors isWide) cur total)).
  { intros h l. unfold Pagination. specialize (U h (LocationObject l)).
    destruct (usePages isWide _ (renders h)) as [pgs c]. simpl in U. subst pgs.
    simpl. rewrite item_entry_map_index. reflexivity. }
  split; [apply U|]. split; [rewrite !U; reflexivity|].
  split; [apply P|rewrite !P; reflexivity].
Qed.

End Rendering.

Section Footer.
Import FooterLinks.
Local Open Scope string_scope.

(** C9: the footer shows the queried links in their order and then one
    link [Legal] to [/legal].  A link goes to its own slug and is not
    external, except a link with slug [/watch]: it goes to
    [http://bit.ly/3csKkSE] and is external. *)
Theorem FooterLinks_renders_links_then_legal (menuLinks : list menuLink) :
  length (FooterLinks menuLinks) = S (length menuLinks) /\
  map children (FooterLinks menuLinks) = (map name menuLinks ++ ["Legal"])%list /\
  (forall i link, nth_error menuLinks i = Some link ->
     exists item, nth_error (FooterLinks menuLinks) i = Some item /\
       children item = name link /\ key item = name link /\
       (slug link <> "/watch" -> to item = slug link /\ isExternal item = false) /\
       (slug link = "/watch" ->
          to item = "http://bit.ly/3csKkSE" /\ isExternal item = true)) /\
  nth_error (FooterLinks menuLinks) (length menuLinks)
    = Some {| key := "Legal"; to := "/legal"; isExternal := false;
              children := "Legal" |}.
Proof.
  unfold FooterLinks. split; [|split; [|split]].
  - rewrite length_map, length_app. simpl. lia.
  - rewrite map_map, map_app. reflexivity.
  - intros i link Hi. exists (render_link link). split.
    + apply map_nth_error. rewrite nth_error_app1; [exact Hi|].
      apply nth_error_Some. congruence.
    + unfold render_link; simpl. repeat split.
      * apply String.eqb_neq in H. rewrite H. reflexivity.
      * apply String.eqb_neq in H. exact H.
      * apply String.eqb_eq in H. rewrite H. reflexivity.
      * apply String.eqb_eq in H. exact H.
  - rewrite (map_nth_error render_link (length menuLinks)
               (menuLinks ++ [ {| name := "Legal"; slug := "/legal" |} ])
               (d := {| name := "Legal"; slug := "/legal" |})); [reflexivity|].
    rewrite nth_error_app2, Nat.sub_diag; [reflexivity|lia].
Qed.

End Footer.

Section Utf8Facts.
Import URLSearchParams.

Ltac between_cases :=
  unfold between in *;
  repeat match goal with
         | H : context [N.leb ?a ?b] |- _ => destruct (N.leb_spec a b)
         | |- context [N.leb ?a ?b] => destruct (N.leb_spec a b)
         | H : context [N.eqb ?a ?b] |- _ => destruct (N.eqb_spec a b)
         | |- context [N.eqb ?a ?b] => destruct (N.eqb_spec a b)
         end;
  simpl in *; try discriminate; try lia.

Lemma utf8_valid_app (a b : str) : utf8_valid a -> utf8_valid b -> utf8_valid (a ++ b).
Proof.
  induction 1 as [|c r Hc Hr IH]; intros Hb; [exact Hb|].
  rewrite <- app_assoc. constructor; auto.
Qed.

Lemma utf8_valid_one (c : str) : utf8_char c -> utf8_valid c.
Proof. intros H. rewrite <- (app_nil_r c). constructor; [exact H|constructor]. Qed.

Lemma REPLACEMENT_valid : utf8_valid REPLACEMENT.
Proof. apply utf8_valid_one. apply utf8_char_3; reflexivity. Qed.

Lemma utf8_init_ok : state_ok utf8_init.
Proof. intros [|b [|b' r]] H; simpl in H; try tauto; destruct H as [_ [H _]]; discriminate. Qed.

Lemma utf8_lead_ok (b : ascii) :
  utf8_valid (fst (utf8_lead b)) /\ state_ok (snd (utf8_lead b)).
Proof.
  unfold utf8_lead.
  destruct (between 0 127 b) eqn:E1; simpl.
  { split; [apply utf8_valid_one, utf8_char_1, E1|apply utf8_init_ok]. }
  destruct (between 194 223 b) eqn:E2; simpl.
  { split; [constructor|]. intros [|b2 [|b3 r]] H; simpl in H; try tauto.
    - destruct H as [H _]. apply utf8_char_2; assumption.
    - destruct H as [_ [H _]]. discriminate. }
  destruct (between 224 239 b) eqn:E3; simpl.
  { split; [constructor|]. intros [|b2 [|b3 [|b4 r]]] H; simpl in H; try tauto.
    - destruct H as [_ [H _]]. discriminate.
    - destruct H as [H2 [_ H3]]. inversion H3; subst.
      apply utf8_char_3; assumption.
    - destruct H as [_ [H _]]. discriminate. }
  destruct (between 240 244 b) eqn:E4; simpl.
  { split; [constructor|]. intros [|b2 [|b3 [|b4 [|b5 r]]]] H; simpl in H; try tauto.
    - destruct H as [_ [H _]]. discriminate.
    - destruct H as [_ [H _]]. discriminate.
    - destruct H as [H2 [_ H3]]. inversion H3 as [|? ? H3a H3b]; subst.
      inversion H3b; subst. apply utf8_char_4; assumption.
    - destruct H as [_ [H _]]. discriminate. }
  split; [apply REPLACEMENT_valid|apply utf8_init_ok].
Qed.

Lemma utf8_step_ok (st : utf8_state) (b : ascii) :
  state_ok st ->
  utf8_valid (fst (utf8_step st b)) /\ state_ok (snd (utf8_step st b)).
Proof.
  intros Hok. unfold utf8_step.
  destruct (needed st) as [|k] eqn:Hn; [apply utf8_lead_ok|].
  destruct (between (lower st) (upper st) b) eqn:Hb.
  - destruct k as [|k].
    + simpl. split; [|apply utf8_init_ok].
      apply utf8_valid_one, Hok. rewrite Hn. simpl. auto.
    + simpl. split; [constructor|].
      unfold state_ok. simpl. intros bs Hbs. rewrite <- app_assoc. apply Hok.
      rewrite Hn. destruct bs as [|b2 r]; [destruct Hbs|].
      destruct Hbs as [H2 [Hl Hr]]. simpl in Hl. simpl.
      split; [exact Hb|]. split; [congruence|]. constructor; assumption.
  - destruct (utf8_lead_ok b) as [Hv Hs].
    destruct (utf8_lead b) as [out st']. simpl in *. split; [|exact Hs].
    apply (utf8_valid_app REPLACEMENT out); [apply REPLACEMENT_valid|exact Hv].
Qed.

Lemma utf8_run_valid (l : str) (st : utf8_state) :
  state_ok st -> utf8_valid (utf8_run st l).
Proof.
  revert st. induction l as [|b r IH]; intros st Hok; simpl.
  - destruct (needed st); [constructor|apply REPLACEMENT_valid].
  - destruct (utf8_step_ok st b Hok) as [Hv Hs].
    destruct (utf8_step st b) as [out st']. simpl in *.
    apply utf8_valid_app; auto.
Qed.

Lemma utf8_decode_valid (l : str) : utf8_valid (utf8_decode l).
Proof. apply utf8_run_valid, utf8_init_ok. Qed.

Lemma utf8_lead_1 (b : ascii) :
  between 0 127 b = true -> utf8_lead b = ([b], utf8_init).
Proof. intros H. unfold utf8_lead. rewrite H. reflexivity. Qed.

Lemma utf8_lead_2 (b : ascii) :
  between 194 223 b = true ->
  utf8_lead b = ([], {| pending := [b]; needed := 1; lower := 128; upper := 191 |}).
Proof.
  intros H. unfold utf8_lead. rewrite H.
  replace (between 0 127 b) with false; [reflexivity|]. between_cases.
Qed.

Lemma utf8_lead_3 (b : ascii) :
  between 224 239 b = true ->
  utf8_lead b = ([], {| pending := [b]; needed := 2;
                        lower := if (code b =? 224)%N then 160%N else 128%N;
                        upper := if (code b =? 237)%N then 159%N else 191%N |}).
Proof.
  intros H. unfold utf8_lead. rewrite H.
  replace (between 0 127 b) with false by between_cases.
  replace (between 194 223 b) with false by between_cases.
  reflexivity.
Qed.

Lemma utf8_lead_4 (b : ascii) :
  between 240 244 b = true ->
  utf8_lead b = ([], {| pending := [b]; needed := 3;
                        lower := if (code b =? 240)%N then 144%N else 128%N;
                        upper := if (code b =? 244)%N then 143%N else 191%N |}).
Proof.
  intros H. unfold utf8_lead. rewrite H.
  replace (between 0 127 b) with false by between_cases.
  replace (between 194 223 b) with false by between_cases.
  replace (between 224 239 b) with false by between_cases.
  reflexivity.
Qed.

(** Decoding well-formed UTF-8 changes nothing. *)
Lemma utf8_decode_id (l : str) : utf8_valid l -> utf8_decode l = l.
Proof.
  unfold utf8_decode. induction 1 as [|c r Hc Hr IH]; [reflexivity|].
  destruct Hc as [b H1|b1 b2 H1 H2|b1 b2 b3 H1 H2 H3|b1 b2 b3 b4 H1 H2 H3 H4];
    cbn [utf8_run utf8_step needed utf8_init app].
  - rewrite (utf8_lead_1 b H1). cbn [app]. rewrite IH. reflexivity.
  - rewrite (utf8_lead_2 b1 H1).
    cbn [utf8_run utf8_step needed lower upper pending app].
    rewrite H2. cbn [app]. rewrite IH. reflexivity.
  - rewrite (utf8_lead_3 b1 H1).
    cbn [utf8_run utf8_step needed lower upper pending app].
    rewrite H2. cbn [utf8_run utf8_step needed lower upper pending app].
    rewrite H3. cbn [app]. rewrite IH. reflexivity.
  - rewrite (utf8_lead_4 b1 H1).
    cbn [utf8_run utf8_step needed lower upper pending app].
    rewrite H2. cbn [utf8_run utf8_step needed lower upper pending app].
    rewrite H3. cbn [utf8_run utf8_step needed lower upper pending app].
    rewrite H4. cbn [app]. rewrite IH. reflexivity.
Qed.

Lemma ascii_valid (l : str) :
  Forall (fun c => between 0 127 c = true) l -> utf8_valid l.
Proof.
  induction 1 as [|c r Hc Hr IH]; [constructor|].
  change (utf8_valid ([c] ++ r)). constructor; [apply utf8_char_1, Hc|exact IH].
Qed.

End Utf8Facts.

Section UrlencodedFacts.
Import URLSearchParams.

Lemma str_eqb_eq (a b : str) : str_eqb a b = true <-> a = b.
Proof.
  revert b. induction a as [|x a IH]; intros [|y b]; simpl; try (split; congruence).
  rewrite andb_true_iff, Ascii.eqb_eq, IH. split; [intros [-> ->]; reflexivity|].
  intros E; inversion E; auto.
Qed.

Lemma urlencoded_byte_decode (c : ascii) (r : str) :
  percent_decode (map plus_to_space (urlencoded_byte c) ++ r) = c :: percent_decode r.
Proof.
  destruct c as [[] [] [] [] [] [] [] []]; reflexivity.
Qed.

Lemma urlencoded_encode_decode (x r : str) :
  percent_decode (map plus_to_space (urlencoded_encode x) ++ r) = x ++ percent_decode r.
Proof.
  induction x as [|c x IH]; [reflexivity|].
  unfold urlencoded_encode in *. cbn [flat_map].
  rewrite map_app, <- app_assoc, urlencoded_byte_decode, IH. reflexivity.
Qed.

Lemma urlencoded_byte_plain (c : ascii) :
  Forall (fun d => d <> "&"%char /\ d <> "="%char /\ d <> "?"%char) (urlencoded_byte c).
Proof.
  destruct c as [[] [] [] [] [] [] [] []];
    repeat constructor; discriminate.
Qed.

Lemma urlencoded_encode_plain (x : str) :
  Forall (fun d => d <> "&"%char /\ d <> "="%char /\ d <> "?"%char) (urlencoded_encode x).
Proof.
  induction x as [|c x IH]; [constructor|].
  unfold urlencoded_encode in *. cbn [flat_map].
  apply Forall_app. split; [apply urlencoded_byte_plain|exact IH].
Qed.

Lemma split_on_app (sep : ascii) (a rest : str) :
  Forall (fun d => d <> sep) a ->
  split_on sep (a ++ sep :: rest) = a :: split_on sep rest.
Proof.
  induction 1 as [|c a Hc Ha IH]; simpl.
  - rewrite Ascii.eqb_refl. reflexivity.
  - apply Ascii.eqb_neq in Hc. rewrite Hc, IH. reflexivity.
Qed.

Lemma split_on_none (sep : ascii) (a : str) :
  Forall (fun d => d <> sep) a -> split_on sep a = [a].
Proof.
  induction 1 as [|c a Hc Ha IH]; simpl; [reflexivity|].
  apply Ascii.eqb_neq in Hc. rewrite Hc, IH. reflexivity.
Qed.

Lemma break_at_app (sep : ascii) (a b : str) :
  Forall (fun d => d <> sep) a -> break_at sep (a ++ sep :: b) = (a, b).
Proof.
  induction 1 as [|c a Hc Ha IH]; simpl.
  - rewrite Ascii.eqb_refl. reflexivity.
  - apply Ascii.eqb_neq in Hc. rewrite Hc, IH. reflexivity.
Qed.

Lemma serialize_tuple_plain (t : str * str) :
  Forall (fun d => d <> "&"%char /\ d <> "?"%char) (serialize_tuple t).
Proof.
  unfold serialize_tuple. apply Forall_app. split; [|constructor].
  - eapply Forall_impl; [|apply urlencoded_encode_plain]. simpl; tauto.
  - split; discriminate.
  - eapply Forall_impl; [|apply urlencoded_encode_plain]. simpl; tauto.
Qed.

Lemma serialize_tuple_nonempty (t : str * str) : is_empty (serialize_tuple t) = false.
Proof.
  unfold serialize_tuple. destruct (urlencoded_encode (fst t)); reflexivity.
Qed.

Lemma serialize_from (l : params) (out : str) :
  is_empty out = false ->
  fold_left
    (fun output t =>
       (if is_empty output then output else output ++ ["&"%char])
       ++ urlencoded_encode (fst t) ++ ["="%char] ++ urlencoded_encode (snd t))
    l out
  = out ++ flat_map (fun t => "&"%char :: serialize_tuple t) l.
Proof.
  revert out. induction l as [|t l IH]; intros out Hout; simpl.
  - rewrite app_nil_r. reflexivity.
  - rewrite Hout, IH.
    + unfold serialize_tuple. rewrite <- !app_assoc. reflexivity.
    + destruct out; [discriminate|reflexivity].
Qed.

(** The serializer joins the tuples with [&]. *)
Lemma urlencoded_serialize_cons (t : str * str) (l : params) :
  urlencoded_serialize (t :: l)
  = serialize_tuple t ++ flat_map (fun t => "&"%char :: serialize_tuple t) l.
Proof.
  unfold urlencoded_serialize. simpl fold_left.
  apply (serialize_from l (serialize_tuple t)), serialize_tuple_nonempty.
Qed.

Lemma split_serialized (t : str * str) (l : params) :
  split_on "&" (serialize_tuple t ++ flat_map (fun t => "&"%char :: serialize_tuple t) l)
  = map serialize_tuple (t :: l).
Proof.
  assert (P : forall t, Forall (fun d => d <> "&"%char) (serialize_tuple t)).
  { intros t0. eapply Forall_impl; [|apply serialize_tuple_plain]. simpl; tauto. }
  revert t. induction l as [|t' l IH]; intros t; simpl.
  - rewrite app_nil_r. apply split_on_none, P.
  - rewrite split_on_app by apply P. rewrite IH. reflexivity.
Qed.

Lemma decode_component_encode (x : str) :
  utf8_valid x -> decode_component (urlencoded_encode x) = x.
Proof.
  intros H. unfold decode_component.
  rewrite <- (app_nil_r (map _ _)), urlencoded_encode_decode.
  simpl. rewrite app_nil_r. apply utf8_decode_id, H.
Qed.

Lemma parse_serialize_tuple (t : str * str) :
  utf8_valid (fst t) -> utf8_valid (snd t) -> parse_tuple (serialize_tuple t) = t.
Proof.
  intros Hn Hv. unfold parse_tuple, serialize_tuple. simpl app.
  rewrite break_at_app.
  - rewrite !decode_component_encode by assumption. destruct t; reflexivity.
  - eapply Forall_impl; [|apply urlencoded_encode_plain]. simpl; tauto.
Qed.

(** Parsing what the serializer wrote gives the tuples back. *)
Lemma urlencoded_parse_serialize (l : params) :
  params_valid l -> urlencoded_parse (urlencoded_serialize l) = l.
Proof.
  intros Hl. destruct l as [|t l]; [reflexivity|].
  rewrite urlencoded_serialize_cons. unfold urlencoded_parse.
  rewrite split_serialized.
  induction Hl as [|t0 l0 [Hn Hv] Hl IH]; [reflexivity|].
  cbn [map filter]. rewrite serialize_tuple_nonempty. cbn [negb map].
  rewrite parse_serialize_tuple by assumption. f_equal. exact IH.
Qed.

Lemma new_toString (l : params) : params_valid l -> new (toString l) = l.
Proof.
  intros Hl. unfold new, toString.
  destruct (urlencoded_serialize l) as [|c r] eqn:E.
  - rewrite <- E. apply urlencoded_parse_serialize, Hl.
  - replace (Ascii.eqb c "?") with false.
    + rewrite <- E. apply urlencoded_parse_serialize, Hl.
    + symmetry. apply Ascii.eqb_neq.
      destruct l as [|t l]; [discriminate|].
      rewrite urlencoded_serialize_cons in E.
      pose proof (serialize_tuple_plain t) as P.
      pose proof (serialize_tuple_nonempty t) as N.
      destruct (serialize_tuple t) as [|c' r']; [discriminate|].
      inversion E; subst. inversion P; subst. tauto.
Qed.

Lemma urlencoded_parse_valid (input : str) : params_valid (urlencoded_parse input).
Proof.
  unfold urlencoded_parse, params_valid. apply Forall_map, Forall_forall.
  intros b _. unfold parse_tuple. destruct (break_at "=" b) as [n v]. simpl.
  split; apply utf8_decode_valid.
Qed.

Lemma new_valid (init : str) : params_valid (new init).
Proof.
  unfold new. destruct init as [|c r]; [apply urlencoded_parse_valid|].
  destruct (Ascii.eqb c "?"); apply urlencoded_parse_valid.
Qed.

Lemma delete_valid (name : str) (l : params) :
  params_valid l -> params_valid (delete name l).
Proof.
  unfold params_valid, delete. intros H. apply Forall_forall. intros t Ht.
  apply filter_In in Ht. destruct Ht as [Ht _].
  rewrite Forall_forall in H. apply H, Ht.
Qed.

Lemma set_valid (name value : str) (l : params) :
  utf8_valid name -> utf8_valid value ->
  params_valid l -> params_valid (set name value l).
Proof.
  intros Hn Hv Hl. unfold set. destruct (has name l).
  - induction Hl as [|t l [Ht1 Ht2] Hl IH]; simpl; [constructor|].
    destruct (str_eqb (fst t) name).
    + constructor; [split; assumption|]. apply delete_valid, Hl.
    + constructor; [split; assumption|exact IH].
  - apply Forall_app. split; [exact Hl|]. constructor; [split; assumption|constructor].
Qed.

Lemma delete_delete (name : str) (l : params) :
  delete name (delete name l) = delete name l.
Proof.
  unfold delete. induction l as [|t l IH]; simpl; [reflexivity|].
  destruct (str_eqb (fst t) name) eqn:E; simpl; [exact IH|].
  rewrite E. simpl. rewrite IH. reflexivity.
Qed.

Lemma delete_set (name value : str) (l : params) :
  delete name (set name value l) = delete name l.
Proof.
  assert (R : str_eqb name name = true) by (apply str_eqb_eq; reflexivity).
  unfold set. destruct (has name l).
  - induction l as [|t l IH]; simpl; [reflexivity|].
    destruct (str_eqb (fst t) name) eqn:E; simpl.
    + rewrite E. simpl. apply delete_delete.
    + rewrite E. simpl. rewrite IH. reflexivity.
  - unfold delete. rewrite filter_app. simpl. rewrite R. simpl.
    apply app_nil_r.
Qed.

End UrlencodedFacts.

Section PageLinks.
Import URLSearchParams PaginationLinks.

Lemma uint_digits (d : Decimal.uint) :
  Forall (fun c => between 48 57 c = true)
         (list_ascii_of_string (NilEmpty.string_of_uint d)).
Proof. induction d; simpl; constructor; auto. Qed.

Lemma uint_digits_zero (d : Decimal.uint) :
  Forall (fun c => between 48 57 c = true)
         (list_ascii_of_string (NilZero.string_of_uint d)).
Proof.
  destruct d; try apply (uint_digits (_ d)).
  repeat constructor.
Qed.

Lemma Number_toString_digits (n : Z) :
  0 <= n -> Forall (fun c => between 48 57 c = true) (Number_toString n).
Proof.
  intros H. unfold Number_toString. destruct n as [|p|p]; [| |lia].
  - repeat constructor.
  - apply uint_digits_zero.
Qed.

Lemma digit_is_ascii (c : ascii) : between 48 57 c = true -> between 0 127 c = true.
Proof.
  unfold between. rewrite !andb_true_iff, !N.leb_le. lia.
Qed.

Lemma Number_toString_valid (n : Z) : utf8_valid (Number_toString n).
Proof.
  apply ascii_valid. destruct n as [|p|p].
  - repeat constructor.
  - eapply Forall_impl; [apply digit_is_ascii|]. apply (Number_toString_digits (Z.pos p)). lia.
  - unfold Number_toString. simpl. constructor; [reflexivity|].
    eapply Forall_impl; [apply digit_is_ascii|]. apply uint_digits_zero.
Qed.

Lemma PAGE_valid : utf8_valid PAGE.
Proof. apply ascii_valid. repeat constructor. Qed.

Lemma urlencoded_byte_digit (c : ascii) :
  between 48 57 c = true -> urlencoded_byte c = [c].
Proof.
  destruct c as [[] [] [] [] [] [] [] []]; intros H; try discriminate H; reflexivity.
Qed.

Lemma urlencoded_encode_digits (x : str) :
  Forall (fun c => between 48 57 c = true) x -> urlencoded_encode x = x.
Proof.
  induction 1 as [|c x Hc Hx IH]; [reflexivity|].
  unfold urlencoded_encode in *. simpl. rewrite IH, urlencoded_byte_digit by exact Hc.
  reflexivity.
Qed.

Lemma serialize_page_tuple (n : Z) :
  0 <= n ->
  serialize_tuple (PAGE, Number_toString n)
  = list_ascii_of_string "page=" ++ Number_toString n.
Proof.
  intros H. unfold serialize_tuple. simpl fst. simpl snd.
  rewrite (urlencoded_encode_digits (Number_toString n))
    by apply Number_toString_digits, H.
  reflexivity.
Qed.

Lemma getUpdatedSearchParams_valid (searchString : str) (page : Z) :
  params_valid (if page =? 1 then delete PAGE (new searchString)
                else set PAGE (Number_toString page) (new searchString)).
Proof.
  destruct (page =? 1).
  - apply delete_valid, new_valid.
  - apply set_valid; [apply PAGE_valid|apply Number_toString_valid|apply new_valid].
Qed.

(** C7: [getUpdatedSearchParams] touches the [page] parameter only.  The
    parameters of the result that are not called [page] are those of the
    search string given: the same names with the same values, in the same
    order, none added and none dropped. *)
Theorem getUpdatedSearchParams_keeps_other_params (searchString : str) (page : Z) :
  other_params (new (getUpdatedSearchParams searchString page))
  = other_params (new searchString).
Proof.
  unfold getUpdatedSearchParams.
  rewrite new_toString by apply getUpdatedSearchParams_valid.
  change other_params with (delete PAGE).
  destruct (page =? 1); [apply delete_delete|apply delete_set].
Qed.

Lemma delete_only (name : str) (l : params) :
  (forall t, In t l -> fst t = name) -> delete name l = [].
Proof.
  induction l as [|t l IH]; intros H; simpl; [reflexivity|].
  replace (str_eqb (fst t) name) with true.
  - simpl. apply IH. intros t' Ht'. apply H. right. exact Ht'.
  - symmetry. apply str_eqb_eq. apply H. left. reflexivity.
Qed.

Lemma set_only (name value : str) (l : params) :
  (forall t, In t l -> fst t = name) -> set name value l = [(name, value)].
Proof.
  intros H. destruct l as [|t l]; [reflexivity|].
  assert (E : fst t = name) by (apply H; left; reflexivity).
  assert (R : str_eqb (fst t) name = true) by (apply str_eqb_eq, E).
  unfold set. simpl. rewrite R. simpl. rewrite E. f_equal.
  apply delete_only. intros t' Ht'. apply H. right. exact Ht'.
Qed.

Lemma set_In (name value : str) (l : params) : In (name, value) (set name value l).
Proof.
  unfold set. destruct (has name l) eqn:Hh.
  - induction l as [|t l IH]; simpl in *; [discriminate|].
    destruct (str_eqb (fst t) name) eqn:E.
    + left. apply str_eqb_eq in E. rewrite E. reflexivity.
    + right. apply IH. exact Hh.
  - apply in_or_app. right. left. reflexivity.
Qed.

Lemma flat_map_amp_app (l1 l2 : params) :
  flat_map (fun t => "&"%char :: serialize_tuple t) (l1 ++ l2)
  = flat_map (fun t => "&"%char :: serialize_tuple t) l1
    ++ flat_map (fun t => "&"%char :: serialize_tuple t) l2.
Proof. induction l1 as [|t l1 IH]; simpl; [|rewrite IH, <- app_assoc]; reflexivity. Qed.

(** A tuple of the list is in the serialization between [&]s or at an
    end. *)
Lemma serialize_In (t : str * str) (l : params) :
  In t l ->
  exists pre post,
    urlencoded_serialize l = pre ++ serialize_tuple t ++ post /\
    (pre = [] \/ exists pre', pre = pre' ++ ["&"%char]) /\
    (post = [] \/ exists post', post = "&"%char :: post').
Proof.
  intros Hin. apply in_split in Hin. destruct Hin as [l1 [l2 ->]].
  assert (Post : forall l2,
    flat_map (fun t => "&"%char :: serialize_tuple t) l2 = [] \/
    exists post', flat_map (fun t => "&"%char :: serialize_tuple t) l2
                  = "&"%char :: post').
  { intros [|t2 l3]; [left; reflexivity|right; simpl; eauto]. }
  destruct l1 as [|t0 l1].
  - exists [], (flat_map (fun t => "&"%char :: serialize_tuple t) l2).
    simpl app. rewrite urlencoded_serialize_cons. auto.
  - exists (serialize_tuple t0
            ++ flat_map (fun t => "&"%char :: serialize_tuple t) l1 ++ ["&"%char]),
           (flat_map (fun t => "&"%char :: serialize_tuple t) l2).
    simpl app. rewrite urlencoded_serialize_cons, flat_map_amp_app. simpl flat_map.
    split; [|split; [right|apply Post]].
    + rewrite <- !app_assoc. reflexivity.
    + exists (serialize_tuple t0
              ++ flat_map (fun t => "&"%char :: serialize_tuple t) l1).
      rewrite <- app_assoc. reflexivity.
Qed.

(** C8: the link to page 1 drops the [page] parameter, the link to a
    later page carries it.  For a location [loc] whose search string has
    no parameter but [page], the link to page 1 is the bare pathname and
    the link to page [n >= 2] is the pathname, [?page=n] and [#results].
    For any location [loc'], the link to page [n >= 2] is the pathname,
    [?], a query string that holds [page=n] as one of its [&]-separated
    parts, and [#results]. *)
Theorem getPageLink_page_parameter (loc loc' : Location) (page : Z) :
  (forall t, In t (new (search loc)) -> fst t = PAGE) ->
  2 <= page ->
  getPageLink loc 1 = pathname loc /\
  getPageLink loc page
    = pathname loc ++ list_ascii_of_string "?page=" ++ Number_toString page
      ++ list_ascii_of_string "#results" /\
  exists pre post,
    getPageLink loc' page
      = pathname loc' ++ ["?"%char]
        ++ (pre ++ list_ascii_of_string "page=" ++ Number_toString page ++ post)
        ++ list_ascii_of_string "#results" /\
    (pre = [] \/ exists pre', pre = pre' ++ ["&"%char]) /\
    (post = [] \/ exists post', post = "&"%char :: post').
Proof.
  intros Honly Hpage.
  assert (Hne : (page =? 1) = false) by (apply Z.eqb_neq; lia).
  split; [|split].
  - unfold getPageLink, getUpdatedSearchParams. simpl Z.eqb. cbv iota.
    rewrite delete_only by exact Honly. reflexivity.
  - unfold getPageLink, getUpdatedSearchParams. rewrite Hne.
    rewrite set_only by exact Honly.
    unfold toString. rewrite urlencoded_serialize_cons. simpl flat_map.
    rewrite app_nil_r, serialize_page_tuple by lia. reflexivity.
  - unfold getPageLink, getUpdatedSearchParams. rewrite Hne.
    destruct (serialize_In _ _ (set_In PAGE (Number_toString page) (new (search loc'))))
      as [pre [post [E [Hpre Hpost]]]].
    exists pre, post. unfold toString. rewrite E.
    rewrite serialize_page_tuple by lia. split; [|split; assumption].
    replace (is_empty _) with false; [rewrite <- !app_assoc; reflexivity|].
    destruct pre; reflexivity.
Qed.

Lemma getPageLink_page_parameter_witness :
  let loc := {| pathname := list_ascii_of_string "/blog";
                search := list_ascii_of_string "?page=2" |} in
  let loc' := {| pathname := list_ascii_of_string "/blog";
                 search := list_ascii_of_string "?tag=a&page=2" |} in
  getPageLink loc 1 = pathname loc /\
  getPageLink loc 3
    = pathname loc ++ list_ascii_of_string "?page=" ++ Number_toString 3
      ++ list_ascii_of_string "#results" /\
  exists pre post,
    getPageLink loc' 3
      = pathname loc' ++ ["?"%char]
        ++ (pre ++ list_ascii_of_string "page=" ++ Number_toString 3 ++ post)
        ++ list_ascii_of_string "#results" /\
    (pre = [] \/ exists pre', pre = pre' ++ ["&"%char]) /\
    (post = [] \/ exists post', post = "&"%char :: post').
Proof.
  intros loc loc'. apply (getPageLink_page_parameter loc loc' 3).
  - vm_compute. intros t [<-|[]]. reflexivity.
  - lia.
Defined.

End PageLinks.

(** * Further properties of the page window *)

Section WindowShape.
Import Common Pagination PageWindow.

Lemma range_empty (a b : Z) : b < a -> range a b = [].
Proof.
  intros H. unfold range. replace (Z.to_nat (b - a + 1)) with O by lia.
  reflexivity.
Qed.

Lemma range_loop_app (n m : nat) (a : Z) :
  range_loop (n + m) a = range_loop n a ++ range_loop m (a + Z.of_nat n).
Proof.
  revert a. induction n as [|n IH]; intros a; simpl.
  - f_equal. lia.
  - rewrite IH. do 3 f_equal. lia.
Qed.

Lemma range_app (a b c : Z) :
  a <= b + 1 -> b <= c -> range a b ++ range (b + 1) c = range a c.
Proof.
  intros H1 H2. unfold range.
  replace (Z.to_nat (c - a + 1))
    with (Z.to_nat (b - a + 1) + Z.to_nat (c - (b + 1) + 1))%nat by lia.
  rewrite range_loop_app. do 2 f_equal. lia.
Qed.

(** The window of the long case for a current page up to [pageNeighbors]
    outside [1 .. totalPages]. *)
Lemma pages_long_window (pn cur total : Z) :
  pn = 1 \/ pn = 2 ->
  total > 2 * pn + 5 ->
  1 - pn <= cur <= total + pn ->
  pages pn cur total = pages_closed_form pn cur total.
Proof.
  intros Hpn Htot Hcur. unfold pages, pages_closed_form.
  destruct (Z.gtb_spec total (pn * 2 + 3 + 2)) as [_|Hn]; [|lia].
  destruct (Z.leb_spec total (2 * pn + 5)) as [Hn|_]; [lia|].
  cbv zeta. rewrite length_map, range_length.
  destruct (Z.leb_spec cur (pn + 2)) as [Hs|Hs].
  - replace (Z.max 2 (cur - pn)) with 2 by lia.
    replace (Z.min (total - 1) (cur + pn)) with (cur + pn) by lia.
    destruct (Z.gtb_spec 2 2) as [Hx|_]; [lia|].
    destruct (Z.gtb_spec (total - (cur + pn)) 1) as [_|Hx]; [|lia].
    simpl andb. cbv iota.
    rewrite app_assoc, <- map_app. 
    replace (cur + pn + (pn * 2 + 3 - (Z.of_nat (Z.to_nat (cur + pn - 2 + 1)) + 1)))
      with (2 * pn + 3) by lia.
    rewrite range_app by lia. rewrite <- app_assoc. reflexivity.
  - destruct (Z.leb_spec (total - pn - 1) cur) as [He|He].
    + replace (Z.max 2 (cur - pn)) with (cur - pn) by lia.
      replace (Z.min (total - 1) (cur + pn)) with (total - 1) by lia.
      destruct (Z.gtb_spec (cur - pn) 2) as [_|Hx]; [|lia].
      destruct (Z.gtb_spec (total - (total - 1)) 1) as [Hx|_]; [lia|].
      simpl andb. cbv iota. rewrite <- map_app.
      replace (cur - pn - (pn * 2 + 3 - (Z.of_nat (Z.to_nat (total - 1 - (cur - pn) + 1)) + 1)))
        with (total - 2 * pn - 2) by lia.
      replace (range (cur - pn) (total - 1))
        with (range (cur - pn - 1 + 1) (total - 1)) by (f_equal; lia).
      rewrite range_app by lia. reflexivity.
    + replace (Z.max 2 (cur - pn)) with (cur - pn) by lia.
      replace (Z.min (total - 1) (cur + pn)) with (cur + pn) by lia.
      destruct (Z.gtb_spec (cur - pn) 2) as [_|Hx]; [|lia].
      destruct (Z.gtb_spec (total - (cur + pn)) 1) as [_|Hx]; [|lia].
      simpl andb. cbv iota. cbn [app]. rewrite <- app_assoc. reflexivity.
Qed.

Lemma pages_is_closed_form_in_range (pn cur total : Z) :
  pn = 1 \/ pn = 2 -> 1 <= cur <= total ->
  pages pn cur total = pages_closed_form pn cur total.
Proof.
  intros Hpn Hcur.
  destruct (Z.leb_spec total (2 * pn + 5)) as [Hs|Hl].
  - unfold pages, pages_closed_form.
    destruct (Z.gtb_spec total (pn * 2 + 3 + 2)) as [Hx|_]; [lia|].
    destruct (Z.leb_spec total (2 * pn + 5)) as [_|Hx]; [reflexivity|lia].
  - apply pages_long_window; [exact Hpn|lia|lia].
Qed.

End WindowShape.

Section WindowProperties.
Import Common Pagination PageWindow PaginationLinks PaginationItems.

(** X1: with more pages than blocks the control has a constant width:
    the window has exactly [2 * pageNeighbors + 5] entries, whatever the
    current page. *)
Theorem pages_long_exact_width (pn cur total : Z) :
  pn = 1 \/ pn = 2 ->
  total > 2 * pn + 5 ->
  Z.of_nat (length (pages pn cur total)) = 2 * pn + 5.
Proof.
  intros Hpn Htot. unfold pages.
  destruct (Z.gtb_spec total (pn * 2 + 3 + 2)) as [_|Hle]; [|lia].
  cbv zeta.
  destruct (Z.gtb_spec (Z.max 2 (cur - pn)) 2) as [Hl|Hl];
    destruct (Z.gtb_spec (total - Z.min (total - 1) (cur + pn)) 1) as [Hr|Hr];
    simpl andb; cbv iota; simpl length;
    repeat (rewrite ?length_app, ?length_map, ?range_length; simpl length);
    lia.
Qed.

Lemma pages_long_exact_width_witness :
  Z.of_nat (length (pages 1 (-20) 8)) = 2 * 1 + 5.
Proof. apply (pages_long_exact_width 1 (-20) 8); lia. Defined.

(** X2: the window in closed form.  For a current page in
    [1 - pageNeighbors .. totalPages + pageNeighbors] the window is every
    page when the pages fit in the blocks, and else the first
    [2 * pageNeighbors + 3] pages, the last [2 * pageNeighbors + 3] pages,
    or the current page with its neighbours between two placeholders. *)
Theorem pages_is_closed_form (pn cur total : Z) :
  pn = 1 \/ pn = 2 ->
  1 - pn <= cur <= total + pn ->
  pages pn cur total = pages_closed_form pn cur total.
Proof.
  intros Hpn Hcur.
  destruct (Z.leb_spec total (2 * pn + 5)) as [Hs|Hl].
  - unfold pages, pages_closed_form.
    destruct (Z.gtb_spec total (pn * 2 + 3 + 2)) as [Hx|_]; [lia|].
    destruct (Z.leb_spec total (2 * pn + 5)) as [_|Hx]; [reflexivity|lia].
  - apply pages_long_window; [exact Hpn|lia|exact Hcur].
Qed.

Lemma pages_is_closed_form_witness :
  pages 2 9 20 = pages_closed_form 2 9 20.
Proof. apply (pages_is_closed_form 2 9 20); lia. Defined.

(** X3: the current page is not clamped from above.  With more pages
    than blocks, a current page beyond [totalPages + pageNeighbors] puts
    the [2 * pageNeighbors + 2] pages below [currentPage - pageNeighbors]
    in the window; the last of them is at or past the last page. *)
Theorem pages_current_page_not_clamped_above (pn cur total : Z) :
  pn = 1 \/ pn = 2 ->
  total > 2 * pn + 5 ->
  total + pn < cur ->
  pages pn cur total
  = PageNum 1 :: PLACEHOLDER
      :: map PageNum (range (cur - 3 * pn - 2) (cur - pn - 1))
      ++ [PageNum total].
Proof.
  intros Hpn Htot Hcur. unfold pages.
  destruct (Z.gtb_spec total (pn * 2 + 3 + 2)) as [_|Hn]; [|lia].
  cbv zeta. rewrite length_map, range_length.
  replace (Z.max 2 (cur - pn)) with (cur - pn) by lia.
  replace (Z.min (total - 1) (cur + pn)) with (total - 1) by lia.
  destruct (Z.gtb_spec (cur - pn) 2) as [_|Hx]; [|lia].
  destruct (Z.gtb_spec (total - (total - 1)) 1) as [Hx|_]; [lia|].
  simpl andb. cbv iota.
  rewrite (range_empty (cur - pn) (total - 1)) by lia.
  replace (cur - pn - (pn * 2 + 3 - (Z.of_nat (Z.to_nat (total - 1 - (cur - pn) + 1)) + 1)))
    with (cur - 3 * pn - 2) by lia.
  cbn [map]. rewrite app_nil_r. reflexivity.
Qed.

Lemma pages_current_page_not_clamped_above_witness :
  pages 2 1000 10
  = PageNum 1 :: PLACEHOLDER
      :: map PageNum (range (1000 - 3 * 2 - 2) (1000 - 2 - 1))
      ++ [PageNum 10].
Proof. apply (pages_current_page_not_clamped_above 2 1000 10); lia. Defined.

(** X4: the current page is not clamped from below.  With more pages than
    blocks, a current page below [1 - pageNeighbors] puts the
    [2 * pageNeighbors + 2] pages above [currentPage + pageNeighbors] in
    the window; the first of them is at or below page 1. *)
Theorem pages_current_page_not_clamped_below (pn cur total : Z) :
  pn = 1 \/ pn = 2 ->
  total > 2 * pn + 5 ->
  cur < 1 - pn ->
  pages pn cur total
  = PageNum 1 :: map PageNum (range (cur + pn + 1) (cur + 3 * pn + 2))
      ++ [PLACEHOLDER; PageNum total].
Proof.
  intros Hpn Htot Hcur. unfold pages.
  destruct (Z.gtb_spec total (pn * 2 + 3 + 2)) as [_|Hn]; [|lia].
  cbv zeta. rewrite length_map, range_length.
  replace (Z.max 2 (cur - pn)) with 2 by lia.
  replace (Z.min (total - 1) (cur + pn)) with (cur + pn) by lia.
  destruct (Z.gtb_spec 2 2) as [Hx|_]; [lia|].
  destruct (Z.gtb_spec (total - (cur + pn)) 1) as [_|Hx]; [|lia].
  simpl andb. cbv iota.
  rewrite (range_empty 2 (cur + pn)) by lia.
  replace (cur + pn + (pn * 2 + 3 - (Z.of_nat (Z.to_nat (cur + pn - 2 + 1)) + 1)))
    with (cur + 3 * pn + 2) by lia.
  cbn [map app]. rewrite <- app_assoc. reflexivity.
Qed.

Lemma pages_current_page_not_clamped_below_witness :
  pages 2 (-7) 10
  = PageNum 1 :: map PageNum (range (-7 + 2 + 1) (-7 + 3 * 2 + 2))
      ++ [PLACEHOLDER; PageNum 10].
Proof. apply (pages_current_page_not_clamped_below 2 (-7) 10); lia. Defined.

Lemma sorted_around (l1 l2 : list Z) (c : Z) :
  StronglySorted Z.lt (l1 ++ c :: l2) ->
  (forall x, In x l1 -> x < c) /\ (forall y, In y l2 -> c < y).
Proof.
  induction l1 as [|a l1 IH]; simpl; intros H; inversion H as [|? ? Hs Hf]; subst.
  - split; [intros x []|]. apply Forall_forall, Hf.
  - destruct (IH Hs) as [H1 H2]. split; [|exact H2].
    intros x [<-|Hx]; [|apply H1, Hx].
    rewrite Forall_forall in Hf. apply Hf. apply in_or_app. right. left. reflexivity.
Qed.

(** In a window with increasing page numbers, a page stands once. *)
Lemma sorted_once (l : list page_entry) (c : Z) :
  StronglySorted Z.lt (numbers l) -> In (PageNum c) l ->
  exists l1 l2, l = l1 ++ PageNum c :: l2 /\
                ~ In (PageNum c) l1 /\ ~ In (PageNum c) l2.
Proof.
  intros Hs Hin. apply in_split in Hin. destruct Hin as [l1 [l2 ->]].
  exists l1, l2. split; [reflexivity|].
  rewrite numbers_app in Hs. simpl in Hs.
  apply sorted_around in Hs. destruct Hs as [H1 H2].
  split; intros Hc; apply In_numbers in Hc;
    [apply H1 in Hc|apply H2 in Hc]; lia.
Qed.

Lemma closed_form_sorted (pn cur total : Z) :
  pn = 1 \/ pn = 2 -> 1 <= cur <= total ->
  StronglySorted Z.lt (numbers (pages_closed_form pn cur total)).
Proof.
  intros Hpn Hcur. unfold pages_closed_form.
  destruct (Z.leb_spec total (2 * pn + 5)) as [Hs|Hl].
  { rewrite numbers_map_PageNum. apply range_sorted. }
  destruct (Z.leb_spec cur (pn + 2)); [|destruct (Z.leb_spec (total - pn - 1) cur)];
    cbn [numbers]; rewrite numbers_app, numbers_map_PageNum; cbn [numbers];
    apply window_sorted; try lia; try apply range_sorted;
    intros x Hx; apply range_In in Hx; lia.
Qed.

Lemma closed_form_current (pn cur total : Z) :
  pn = 1 \/ pn = 2 -> 1 <= cur <= total ->
  In (PageNum cur) (pages_closed_form pn cur total).
Proof.
  intros Hpn Hcur. unfold pages_closed_form.
  destruct (Z.leb_spec total (2 * pn + 5)) as [Hs|Hl].
  { apply in_map, range_In. lia. }
  assert (E : cur = 1 \/ cur = total \/ 1 < cur < total) by lia.
  destruct (Z.leb_spec cur (pn + 2)); [|destruct (Z.leb_spec (total - pn - 1) cur)];
    (destruct E as [->|[->|E]];
     [left; reflexivity
     |right; try right; apply in_or_app; right; simpl; auto
     |right; try right; apply in_or_app; left; apply in_map, range_In; lia]).
Qed.

Lemma map_index_app {A B : Type} (f : A -> nat -> B) (i : nat) (l1 l2 : list A) :
  map_index f i (l1 ++ l2) = map_index f i l1 ++ map_index f (i + length l1) l2.
Proof.
  revert i. induction l1 as [|a l1 IH]; intros i; simpl.
  - rewrite Nat.add_0_r. reflexivity.
  - rewrite IH. do 3 f_equal. lia.
Qed.

Lemma map_index_length {A B : Type} (f : A -> nat -> B) (i : nat) (l : list A) :
  length (map_index f i l) = length l.
Proof. revert i. induction l as [|a l IH]; intros i; simpl; [|rewrite IH]; reflexivity. Qed.

Lemma no_active_without_current (loc : Location) (cur : Z) (l : list page_entry) (i : nat) :
  ~ In (PageNum cur) l ->
  filter isActive (map_index (render_item loc cur) i l) = [].
Proof.
  revert i. induction l as [|[|n] l IH]; intros i Hn; simpl.
  - reflexivity.
  - apply IH. intros H. apply Hn. right. exact H.
  - destruct (Z.eqb_spec cur n) as [->|_].
    + exfalso. apply Hn. left. reflexivity.
    + apply IH. intros H. apply Hn. right. exact H.
Qed.

(** X5: the current page has one button, and only that button is the
    active one.  For a current page in [1 .. totalPages], after any renders
    before, the control rendered for a location has exactly one child with
    [isActivePage]: the button of the current page, which links to it. *)
Theorem Pagination_one_active_button
  (history : list (bool * props)) (isWide : bool) (loc : Location)
  (cur total : Z) :
  1 <= cur <= total ->
  exists flex k,
    fst (Pagination isWide (mkProps (LocationObject loc) cur total) (renders history))
      = Some flex /\
    filter isActive (items flex) = [PageButton k (getPageLink loc cur) cur true] /\
    nth_error (items flex) k = Some (PageButton k (getPageLink loc cur) cur true).
Proof.
  intros Hcur.
  assert (Hpn : pageNeighbors isWide = 1 \/ pageNeighbors isWide = 2)
    by (destruct isWide; simpl; auto).
  pose proof (usePages_sound isWide (mkProps (LocationObject loc) cur total)
                (renders history) (renders_sound history)) as [U _].
  simpl in U. unfold Pagination.
  destruct (usePages isWide _ (renders history)) as [pgs cell]. simpl in U. subst pgs.
  simpl. eexists. 
  rewrite pages_is_closed_form_in_range by assumption.
  destruct (sorted_once _ cur (closed_form_sorted _ cur total Hpn Hcur)
              (closed_form_current _ cur total Hpn Hcur)) as [l1 [l2 [E [N1 N2]]]].
  exists (length l1). split; [reflexivity|]. simpl items. rewrite E.
  rewrite map_index_app. simpl. rewrite Z.eqb_refl. split.
  - rewrite filter_app. simpl.
    rewrite !no_active_without_current by assumption. reflexivity.
  - rewrite nth_error_app2 by (rewrite map_index_length; lia).
    rewrite map_index_length, Nat.sub_diag. reflexivity.
Qed.

Lemma Pagination_one_active_button_witness :
  exists flex k,
    fst (Pagination true
           (mkProps (LocationObject {| pathname := list_ascii_of_string "/blog";
                                       search := [] |}) 6 10)
           (renders []))
      = Some flex /\
    filter isActive (items flex)
      = [PageButton k (getPageLink {| pathname := list_ascii_of_string "/blog";
                                      search := [] |} 6) 6 true] /\
    nth_error (items flex) k
      = Some (PageButton k (getPageLink {| pathname := list_ascii_of_string "/blog";
                                           search := [] |} 6) 6 true).
Proof. apply (Pagination_one_active_button [] true _ 6 10). lia. Defined.

End WindowProperties.

(** * Further properties of the page links *)

Section LinkProperties.
Import URLSearchParams PaginationLinks PaginationItems.

Lemma new_question (r : str) : new ("?"%char :: r) = urlencoded_parse r.
Proof. reflexivity. Qed.

Lemma page_params_delete (l : params) : page_params (delete PAGE l) = [].
Proof.
  unfold page_params, delete. induction l as [|t l IH]; simpl; [reflexivity|].
  destruct (str_eqb (fst t) PAGE) eqn:E; simpl; [exact IH|].
  rewrite E. exact IH.
Qed.

Lemma page_params_none (l : params) : has PAGE l = false -> page_params l = [].
Proof.
  unfold page_params, has. induction l as [|t l IH]; simpl; [reflexivity|].
  destruct (str_eqb (fst t) PAGE); simpl; [discriminate|exact IH].
Qed.

Lemma page_params_set (value : str) (l : params) :
  page_params (set PAGE value l) = [(PAGE, value)].
Proof.
  assert (R : str_eqb PAGE PAGE = true) by reflexivity.
  unfold set. destruct (has PAGE l) eqn:Hh.
  - induction l as [|t l IH]; simpl in *; [discriminate|].
    destruct (str_eqb (fst t) PAGE) eqn:E; simpl in *.
    + unfold page_params at 1. simpl. rewrite E.
      fold (page_params (delete PAGE l)). rewrite page_params_delete.
      apply str_eqb_eq in E. rewrite E. reflexivity.
    + unfold page_params at 1. simpl. rewrite E. apply IH, Hh.
  - unfold page_params. rewrite filter_app. fold (page_params l).
    rewrite page_params_none by exact Hh. reflexivity.
Qed.

Lemma has_set_first (name value : str) (l : params) :
  has name l = true -> has name (set_first name value l) = true.
Proof.
  unfold has. induction l as [|t l IH]; simpl; [discriminate|].
  destruct (str_eqb (fst t) name) eqn:E; simpl; intros H.
  - rewrite E. reflexivity.
  - rewrite E. simpl. apply IH, H.
Qed.

Lemma set_first_twice (name v1 v2 : str) (l : params) :
  set_first name v2 (set_first name v1 l) = set_first name v2 l.
Proof.
  induction l as [|t l IH]; simpl; [reflexivity|].
  destruct (str_eqb (fst t) name) eqn:E; simpl; rewrite E.
  - rewrite delete_delete. reflexivity.
  - rewrite IH. reflexivity.
Qed.

Lemma has_app_own (name value : str) (l : params) :
  has name (l ++ [(name, value)]) = true.
Proof.
  unfold has. rewrite existsb_app. simpl.
  replace (str_eqb name name) with true by (symmetry; apply str_eqb_eq; reflexivity).
  rewrite orb_true_r. reflexivity.
Qed.

Lemma set_first_appended (name v1 v2 : str) (l : params) :
  has name l = false ->
  set_first name v2 (l ++ [(name, v1)]) = l ++ [(name, v2)].
Proof.
  unfold has. induction l as [|t l IH]; simpl; intros H.
  - replace (str_eqb name name) with true by (symmetry; apply str_eqb_eq; reflexivity).
    reflexivity.
  - destruct (str_eqb (fst t) name); simpl in H; [discriminate|].
    rewrite IH by exact H. reflexivity.
Qed.

(** Setting twice is setting the later value. *)
Lemma set_set (name v1 v2 : str) (l : params) :
  set name v2 (set name v1 l) = set name v2 l.
Proof.
  unfold set at 2 3. destruct (has name l) eqn:Hh.
  - unfold set. rewrite has_set_first by exact Hh. apply set_first_twice.
  - unfold set. rewrite has_app_own. apply set_first_appended, Hh.
Qed.

(** What parsing the result of [getUpdatedSearchParams] gives. *)
Lemma new_getUpdatedSearchParams (searchString : str) (page : Z) :
  new (getUpdatedSearchParams searchString page)
  = (if page =? 1 then delete PAGE (new searchString)
     else set PAGE (Number_toString page) (new searchString)) /\
  new ("?"%char :: getUpdatedSearchParams searchString page)
  = (if page =? 1 then delete PAGE (new searchString)
     else set PAGE (Number_toString page) (new searchString)).
Proof.
  unfold getUpdatedSearchParams. split.
  - apply new_toString, getUpdatedSearchParams_valid.
  - rewrite new_question. apply urlencoded_parse_serialize, getUpdatedSearchParams_valid.
Qed.

(** X6: the result of [getUpdatedSearchParams] names the page once or not
    at all.  Whatever [page] parameters the search string has, the result
    for page 1 has none, and the result for another page has exactly one,
    whose value is the decimal text of the page. *)
Theorem getUpdatedSearchParams_page_params (searchString : str) (page : Z) :
  page_params (new (getUpdatedSearchParams searchString page))
  = if page =? 1 then [] else [(PAGE, Number_toString page)].
Proof.
  rewrite (proj1 (new_getUpdatedSearchParams searchString page)).
  destruct (page =? 1); [apply page_params_delete|apply page_params_set].
Qed.

(** X7: updating twice is updating once with the later page, unless the
    first page is 1 and the later one is not.  The search string of the
    second update is the result of the first, with or without the [?] a
    location puts before it. *)
Theorem getUpdatedSearchParams_twice (searchString : str) (p q : Z) :
  p <> 1 \/ q = 1 ->
  getUpdatedSearchParams (getUpdatedSearchParams searchString p) q
    = getUpdatedSearchParams searchString q /\
  getUpdatedSearchParams ("?"%char :: getUpdatedSearchParams searchString p) q
    = getUpdatedSearchParams searchString q.
Proof.
  intros H.
  assert (E : forall s', new s' = (if p =? 1 then delete PAGE (new searchString)
                                   else set PAGE (Number_toString p) (new searchString)) ->
              getUpdatedSearchParams s' q = getUpdatedSearchParams searchString q).
  { intros s' Hs'. unfold getUpdatedSearchParams at 1 2. rewrite Hs'. f_equal.
    destruct (Z.eqb_spec q 1) as [Hq|Hq]; destruct (Z.eqb_spec p 1) as [Hp|Hp].
    - apply delete_delete.
    - apply delete_set.
    - lia.
    - apply set_set. }
  split; apply E; apply new_getUpdatedSearchParams.
Qed.

Lemma getUpdatedSearchParams_twice_witness :
  getUpdatedSearchParams
    (getUpdatedSearchParams (list_ascii_of_string "?page=3&tag=a&page=9") 4) 7
    = getUpdatedSearchParams (list_ascii_of_string "?page=3&tag=a&page=9") 7 /\
  getUpdatedSearchParams
    ("?"%char :: getUpdatedSearchParams (list_ascii_of_string "?page=3&tag=a&page=9") 4) 7
    = getUpdatedSearchParams (list_ascii_of_string "?page=3&tag=a&page=9") 7.
Proof.
  apply (getUpdatedSearchParams_twice (list_ascii_of_string "?page=3&tag=a&page=9") 4 7).
  left. lia.
Defined.

Lemma toString_nonempty (t : str * str) (l : params) :
  is_empty (toString (t :: l)) = false.
Proof.
  unfold toString. rewrite urlencoded_serialize_cons.
  pose proof (serialize_tuple_nonempty t) as N.
  destruct (serialize_tuple t); [discriminate|reflexivity].
Qed.

Lemma getPageLink_first_page_or (loc : Location) :
  getPageLink loc 1 = pathname loc \/
  getPageLink loc 1
  = pathname loc ++ ["?"%char] ++ toString (other_params (new (search loc)))
    ++ list_ascii_of_string "#results".
Proof.
  unfold getPageLink, getUpdatedSearchParams. simpl Z.eqb. cbv iota.
  change (delete PAGE (new (search loc))) with (other_params (new (search loc))).
  destruct (other_params (new (search loc))) as [|t l]; [left; reflexivity|].
  rewrite toString_nonempty. right. reflexivity.
Qed.

(** X8: the link to page 1 is the bare pathname exactly when the search
    string has no parameter but [page]; with other parameters it is the
    pathname, [?], those parameters serialized, and [#results]. *)
Theorem getPageLink_first_page (loc : Location) :
  (getPageLink loc 1 = pathname loc <-> other_params (new (search loc)) = []) /\
  (other_params (new (search loc)) <> [] ->
   getPageLink loc 1
   = pathname loc ++ ["?"%char] ++ toString (other_params (new (search loc)))
     ++ list_ascii_of_string "#results").
Proof.
  unfold getPageLink, getUpdatedSearchParams. simpl Z.eqb. cbv iota.
  change (delete PAGE (new (search loc))) with (other_params (new (search loc))).
  destruct (other_params (new (search loc))) as [|t l].
  - split; [split; reflexivity|]. intros H. exfalso. apply H. reflexivity.
  - rewrite toString_nonempty. simpl negb. cbv iota. split; [|reflexivity].
    split; [|discriminate]. intros H.
    apply (f_equal (@length ascii)) in H. rewrite !length_app in H. simpl in H. lia.
Qed.

Lemma Number_toString_inj (n m : Z) : Number_toString n = Number_toString m -> n = m.
Proof.
  unfold Number_toString. intros H.
  apply (f_equal string_of_list_ascii) in H.
  rewrite !string_of_list_ascii_of_string in H.
  assert (P : forall z, NilZero.int_of_string (NilZero.string_of_int (Z.to_int z))
                        = Some (Z.to_int z)).
  { intros z. apply NilZero.isi; destruct z; simpl; try discriminate;
      intros E; inversion E as [E']; apply (Unsigned.to_uint_nonnil _ E'). }
  apply DecimalZ.to_int_inj.
  pose proof (P n) as Pn. rewrite H, P in Pn. congruence.
Qed.

(** X9: the links of one location tell the pages apart: two different
    pages never get the same link. *)
Theorem getPageLink_distinct (loc : Location) (p q : Z) :
  p <> q -> getPageLink loc p <> getPageLink loc q.
Proof.
  intros Hpq Hlink. apply Hpq. revert Hlink.
  assert (Q : forall n, n <> 1 ->
    getPageLink loc n
    = pathname loc ++ ["?"%char] ++ getUpdatedSearchParams (search loc) n
      ++ list_ascii_of_string "#results").
  { intros n Hn. unfold getPageLink.
    destruct (getUpdatedSearchParams (search loc) n) as [|c r] eqn:E; [|reflexivity].
    exfalso. pose proof (proj1 (new_getUpdatedSearchParams (search loc) n)) as Hp.
    apply (f_equal page_params) in Hp. rewrite E in Hp.
    replace (n =? 1) with false in Hp by (symmetry; apply Z.eqb_neq, Hn).
    rewrite page_params_set in Hp. discriminate. }
  assert (D : forall n, n <> 1 -> getPageLink loc 1 <> getPageLink loc n).
  { intros n Hn H. rewrite (Q n Hn) in H.
    destruct (getPageLink_first_page_or loc) as [H1|H1]; rewrite H1 in H.
    - apply (f_equal (@length ascii)) in H. rewrite !length_app in H. simpl in H. lia.
    - apply app_inv_head in H. inversion H as [H'].
      apply app_inv_tail in H'.
      apply (f_equal (fun s => page_params (new s))) in H'.
      rewrite (proj1 (new_getUpdatedSearchParams (search loc) n)) in H'.
      replace (n =? 1) with false in H' by (symmetry; apply Z.eqb_neq, Hn).
      rewrite page_params_set in H'.
      rewrite new_toString in H'.
      + change other_params with (delete PAGE) in H'.
        rewrite page_params_delete in H'. discriminate.
      + apply delete_valid, new_valid. }
  intros H. destruct (Z.eq_dec p 1) as [->|Hp]; destruct (Z.eq_dec q 1) as [->|Hq].
  - reflexivity.
  - exfalso. exact (D q Hq H).
  - exfalso. exact (D p Hp (eq_sym H)).
  - rewrite (Q p Hp), (Q q Hq) in H.
    apply app_inv_head in H. inversion H as [H'].
    apply app_inv_tail in H'.
    apply (f_equal (fun s => page_params (new s))) in H'.
    rewrite !(fun s n => proj1 (new_getUpdatedSearchParams s n)) in H'.
    replace (p =? 1) with false in H' by (symmetry; apply Z.eqb_neq, Hp).
    replace (q =? 1) with false in H' by (symmetry; apply Z.eqb_neq, Hq).
    rewrite !page_params_set in H'. inversion H' as [H''].
    apply Number_toString_inj, H''.
Qed.

Lemma getPageLink_distinct_witness :
  getPageLink {| pathname := list_ascii_of_string "/blog";
                 search := list_ascii_of_string "?tag=a&page=2" |} 1
  <> getPageLink {| pathname := list_ascii_of_string "/blog";
                    search := list_ascii_of_string "?tag=a&page=2" |} 2.
Proof. apply getPageLink_distinct. lia. Defined.

End LinkProperties.

Section ViaFirstPage.
Import URLSearchParams PaginationLinks PaginationItems.

Lemma has_delete (name : str) (l : params) : has name (delete name l) = false.
Proof.
  unfold has, delete. induction l as [|t l IH]; simpl; [reflexivity|].
  destruct (str_eqb (fst t) name) eqn:E; simpl; [exact IH|].
  rewrite E. exact IH.
Qed.

(** X10: an update that follows an update to page 1 puts the page last.
    The first update drops every [page] parameter, so the second one
    appends it: the parameters of the result are the other parameters of
    the search string and then [page]. *)
Theorem getUpdatedSearchParams_after_first_page (searchString : str) (q : Z) :
  q <> 1 ->
  new (getUpdatedSearchParams (getUpdatedSearchParams searchString 1) q)
  = other_params (new searchString) ++ [(PAGE, Number_toString q)].
Proof.
  intros Hq.
  rewrite (proj1 (new_getUpdatedSearchParams _ q)).
  rewrite (proj1 (new_getUpdatedSearchParams searchString 1)).
  replace (q =? 1) with false by (symmetry; apply Z.eqb_neq, Hq).
  simpl Z.eqb. cbv iota. unfold set. rewrite has_delete. reflexivity.
Qed.

Lemma getUpdatedSearchParams_after_first_page_witness :
  new (getUpdatedSearchParams
         (getUpdatedSearchParams (list_ascii_of_string "?page=3&tag=a") 1) 2)
  = other_params (new (list_ascii_of_string "?page=3&tag=a"))
    ++ [(PAGE, Number_toString 2)].
Proof.
  apply (getUpdatedSearchParams_after_first_page
           (list_ascii_of_string "?page=3&tag=a") 2).
  lia.
Defined.

End ViaFirstPage.

(** * Focus and hover of the page buttons *)

Section FocusHoverProperties.
Import FocusHover.

Lemma after_snoc (events : list event) (e : event) :
  after (events ++ [e]) = handle (after events) e.
Proof. unfold after. rewrite fold_left_app. reflexivity. Qed.

(** The element with focus got it from a focus event. *)
Lemma focus_from_event (events : list event) (el : nat) :
  refWithFocus (fst (after events)) = RefElem el ->
  In (onFocus (RefElem el)) events.
Proof.
  induction events as [|e events IH] using rev_ind; [discriminate|].
  rewrite after_snoc. intros H. apply in_or_app.
  destruct e as [elem|elem]; simpl in H.
  - right. left. rewrite H. reflexivity.
  - left. apply IH. unfold addHoverRemoveFocus in H.
    destruct (refWithFocus (fst (after events))) eqn:F; simpl in H.
    + rewrite F in H. discriminate H.
    + rewrite F in H. discriminate H.
    + discriminate H.
Qed.

(** X11: focus and hover exclude each other.  After any series of focus
    and mouse-enter events on a mounted control, [refWithFocus] and
    [refWithHover] are never both an element. *)
Theorem focus_and_hover_never_both (events : list event) :
  truthy (refWithFocus (fst (after events)))
  && truthy (refWithHover (fst (after events))) = false.
Proof.
  induction events as [|e events IH] using rev_ind; [reflexivity|].
  rewrite after_snoc. destruct e as [elem|elem]; simpl.
  - destruct (truthy (refWithHover (fst (after events)))) eqn:E; simpl.
    + apply andb_false_r.
    + rewrite E. apply andb_false_r.
  - unfold addHoverRemoveFocus.
    destruct (refWithFocus (fst (after events))) eqn:F; simpl;
      try (rewrite F; exact IH).
    reflexivity.
Qed.

(** X12: a button gets the hover background only when it is not the
    active page and some button was given focus before: mouse-enter events
    alone never set [refWithHover]. *)
Theorem hover_background_needs_focus (events : list event) (isActivePage : bool) :
  hover_background isActivePage (fst (after events)) = true ->
  isActivePage = false /\ exists el, In (onFocus (RefElem el)) events.
Proof.
  unfold hover_background. rewrite andb_true_iff, negb_true_iff.
  intros [Ha Hh]. split; [exact Ha|]. clear Ha. revert Hh.
  induction events as [|e events IH] using rev_ind; [discriminate|].
  rewrite after_snoc. destruct e as [elem|elem]; simpl.
  - destruct (truthy (refWithHover (fst (after events)))) eqn:E; simpl; [discriminate|].
    rewrite E. discriminate.
  - unfold addHoverRemoveFocus.
    destruct (refWithFocus (fst (after events))) as [| |el] eqn:F; simpl; intros Hh.
    + destruct (IH Hh) as [el Hel]. exists el. apply in_or_app. left. exact Hel.
    + destruct (IH Hh) as [el Hel]. exists el. apply in_or_app. left. exact Hel.
    + exists el. apply in_or_app. left. apply focus_from_event, F.
Qed.

Lemma hover_background_needs_focus_witness :
  false = false /\
  exists el, In (onFocus (RefElem el)) [onFocus (RefElem 2); onMouseEnter (RefElem 4)].
Proof.
  apply (hover_background_needs_focus
           [onFocus (RefElem 2); onMouseEnter (RefElem 4)] false).
  reflexivity.
Defined.

(** X13: [blur()] is only called on an element that was given focus: every
    blurred element is the element of an earlier focus event. *)
Theorem blur_only_focused (events : list event) (el : nat) :
  In el (snd (after events)) -> In (onFocus (RefElem el)) events.
Proof.
  induction events as [|e events IH] using rev_ind; [intros []|].
  rewrite after_snoc. intros H. apply in_or_app. left.
  destruct e as [elem|elem]; simpl in H; [apply IH, H|].
  unfold addHoverRemoveFocus in H.
  destruct (refWithFocus (fst (after events))) as [| |f] eqn:F; simpl in H;
    try (rewrite app_nil_r in H; apply IH, H).
  apply in_app_or in H. destruct H as [H|[<-|[]]]; [apply IH, H|].
  apply focus_from_event, F.
Qed.

Lemma blur_only_focused_witness :
  In (onFocus (RefElem 2)) [onFocus (RefElem 2); onMouseEnter (RefElem 4)].
Proof.
  apply (blur_only_focused [onFocus (RefElem 2); onMouseEnter (RefElem 4)] 2).
  simpl. left. reflexivity.
Defined.

End FocusHoverProperties.

(** * Further properties of the footer *)

Section FooterProperties.
Import FooterLinks.
Local Open Scope string_scope.

(** X14: the keys of the footer items are distinct when the names of the
    queried links are distinct and none of them is [Legal]. *)
Theorem FooterLinks_keys_distinct (menuLinks : list menuLink) :
  NoDup (map name menuLinks) ->
  ~ In "Legal" (map name menuLinks) ->
  NoDup (map key (FooterLinks menuLinks)).
Proof.
  intros Hnd Hl. unfold FooterLinks. rewrite map_map, map_app. simpl.
  change (map (fun x => key (render_link x)) menuLinks) with (map name menuLinks).
  apply NoDup_app; [exact Hnd|repeat constructor; intros []|].
  intros x Hx [<-|[]]. exact (Hl Hx).
Qed.

Lemma FooterLinks_keys_distinct_witness :
  NoDup (map key (FooterLinks [mkLink "Watch" "/watch"; mkLink "About" "/about"])).
Proof.
  apply (FooterLinks_keys_distinct [mkLink "Watch" "/watch"; mkLink "About" "/about"]).
  - simpl. repeat constructor; simpl; intuition discriminate.
  - simpl. intuition discriminate.
Defined.

(** X15: the footer never links to [/watch].  No rendered item has the
    target [/watch], and an item marked external has the target
    [http://bit.ly/3csKkSE]. *)
Theorem FooterLinks_never_targets_watch (menuLinks : list menuLink) (item : NavItem) :
  In item (FooterLinks menuLinks) ->
  to item <> "/watch" /\
  (isExternal item = true -> to item = "http://bit.ly/3csKkSE").
Proof.
  unfold FooterLinks. intros H. apply in_map_iff in H.
  destruct H as [link [<- _]]. unfold render_link. simpl.
  destruct (String.eqb_spec (slug link) "/watch") as [E|E]; simpl.
  - split; [discriminate|reflexivity].
  - split; [exact E|discriminate].
Qed.

Lemma FooterLinks_never_targets_watch_witness :
  to (render_link (mkLink "Watch" "/watch")) <> "/watch" /\
  (isExternal (render_link (mkLink "Watch" "/watch")) = true ->
   to (render_link (mkLink "Watch" "/watch")) = "http://bit.ly/3csKkSE").
Proof.
  apply (FooterLinks_never_targets_watch [mkLink "Watch" "/watch"]).
  simpl. left. reflexivity.
Defined.

End FooterProperties.
